(** * rsocks: the proxy-list client of [client.go]

    A shallow embedding of package [rsocks] (file [client.go]): the line
    parser, the live probe, the retryable HTTP helpers, the error formatter
    and the [List]/[Total] methods of [client], together with the properties
    of the specification that concern them.

    Go strings are byte strings: they are modelled as [string] (a list of
    8-bit [ascii]).  Go [int] status codes are modelled as [Z].  The map
    [map[string]*url.URL] is a [gmap string (option URL)], where [None] is
    the nil pointer.  Everything the package reaches outside itself (the
    network, the file cache, the process limits, the libraries it imports)
    is gathered in one record, [Env]. *)

From Stdlib Require Import ZArith NArith String Ascii List Lia DecimalString.
From stdpp Require Import base option list gmap strings.

Set Default Proof Using "Type".

(** ** Strings: the functions of package [strings] and [fmt] the client uses *)

Module GoString.

Definition byte (c : ascii) : N := N_of_ascii c.

(** The double quote, for texts that contain one. *)
Definition dquote : string := String (ascii_of_N 34) "".
Definition quoted (s : string) : string := dquote +:+ s +:+ dquote.

Definition lf : ascii := ascii_of_N 10.
Definition cr : ascii := ascii_of_N 13.

Fixpoint revapp (s acc : string) : string :=
  match s with
  | EmptyString => acc
  | String c r => revapp r (String c acc)
  end.

Definition rev (s : string) : string := revapp s "".

(** [unicode.IsSpace] on the bytes below [utf8.RuneSelf]:
    '\t', '\n', '\v', '\f', '\r' and ' '. *)
Definition isAsciiSpace (c : ascii) : bool :=
  let n := byte c in
  ((9 <=? n) && (n <=? 13) || (n =? 32))%N.

(** [unicode.IsSpace] on a rune encoded in two bytes: U+0085 (NEL) and
    U+00A0 (NBSP). *)
Definition isSpace2 (b0 b1 : ascii) : bool :=
  ((byte b0 =? 194) && ((byte b1 =? 133) || (byte b1 =? 160)))%N.

(** [unicode.IsSpace] on a rune encoded in three bytes: U+1680,
    U+2000..U+200A, U+2028, U+2029, U+202F, U+205F and U+3000. *)
Definition isSpace3 (b0 b1 b2 : ascii) : bool :=
  let x := byte b0 in let y := byte b1 in let z := byte b2 in
  ((x =? 225) && (y =? 154) && (z =? 128)
   || (x =? 226) && (y =? 128)
      && ((128 <=? z) && (z <=? 138) || (z =? 168) || (z =? 169) || (z =? 175))
   || (x =? 226) && (y =? 129) && (z =? 159)
   || (x =? 227) && (y =? 128) && (z =? 128))%N.

(** [strings.TrimLeftFunc(s, unicode.IsSpace)]: runes are decoded from the
    front; an invalid byte is [utf8.RuneError], which is no space. *)
Fixpoint trimLeftSpace (s : string) : string :=
  match s with
  | EmptyString => s
  | String b0 r0 =>
      if isAsciiSpace b0 then trimLeftSpace r0
      else match r0 with
           | EmptyString => s
           | String b1 r1 =>
               if isSpace2 b0 b1 then trimLeftSpace r1
               else match r1 with
                    | EmptyString => s
                    | String b2 r2 =>
                        if isSpace3 b0 b1 b2 then trimLeftSpace r2 else s
                    end
           end
  end.

(** The same scan over the reversed string, for
    [strings.TrimRightFunc]: the bytes of a rune arrive last byte
    first. *)
Fixpoint trimLeftSpaceRev (s : string) : string :=
  match s with
  | EmptyString => s
  | String b0 r0 =>
      if isAsciiSpace b0 then trimLeftSpaceRev r0
      else match r0 with
           | EmptyString => s
           | String b1 r1 =>
               if isSpace2 b1 b0 then trimLeftSpaceRev r1
               else match r1 with
                    | EmptyString => s
                    | String b2 r2 =>
                        if isSpace3 b2 b1 b0 then trimLeftSpaceRev r2 else s
                    end
           end
  end.

Definition trimRightSpace (s : string) : string :=
  rev (trimLeftSpaceRev (rev s)).

(** [strings.TrimSpace]. *)
Definition TrimSpace (s : string) : string :=
  trimRightSpace (trimLeftSpace s).

(** [strings.Split(s, sep)] for a separator of one byte: the substrings
    between the separators, so one more than there are separators (and
    [[""]] for the empty string). *)
Fixpoint Split (s : string) (sep : ascii) : list string :=
  match s with
  | EmptyString => [EmptyString]
  | String c r =>
      if Ascii.eqb c sep then EmptyString :: Split r sep
      else match Split r sep with
           | t :: ts => String c t :: ts
           | [] => [String c EmptyString]
           end
  end.

(** The verb [%d] of package [fmt] on an [int]. *)
Definition itoa (z : Z) : string := NilZero.string_of_int (Z.to_int z).

(** [strings.Join(l, sep)]. *)
Fixpoint Join (l : list string) (sep : string) : string :=
  match l with
  | [] => ""
  | [s] => s
  | s :: r => s +:+ sep +:+ Join r sep
  end.

Fixpoint forallb (p : ascii → bool) (s : string) : bool :=
  match s with
  | EmptyString => true
  | String c r => p c && forallb p r
  end.

Fixpoint repeat (c : ascii) (n : nat) : string :=
  match n with
  | O => ""
  | S k => String c (repeat c k)
  end.

(** The byte [sep] does not occur in [s]. *)
Definition lacks (sep : ascii) (s : string) : Prop :=
  forallb (fun c => negb (Ascii.eqb c sep)) s = true.

End GoString.

Import GoString.


(** ** Values of the libraries: errors, URLs, HTTP messages *)

(** [type apiError struct { err string; statusCode int }]. *)
Record apiError := { err : string; statusCode : Z }.

(** Go's [error] values, as far as the client can tell them apart: the
    text-only errors of [errors.New] and [fmt.Errorf] (and of the libraries,
    whose errors the client only prints or hands on), its own [*apiError],
    and the two sentinel values package [cachita] compares by identity. *)
Inductive error :=
| errorString (msg : string)
| apiErrorPtr (a : apiError)
| cachita_ErrNotFound
| cachita_ErrExpired.

(** [func (a apiError) Error() string]. *)
Definition apiError_Error (a : apiError) : string := err a.

(** [func (a apiError) StatusCode() int]. *)
Definition apiError_StatusCode (a : apiError) : Z := statusCode a.

(** The method [Error()] of an [error] value. *)
Definition Error_ (e : error) : string :=
  match e with
  | errorString msg => msg
  | apiErrorPtr a => apiError_Error a
  | cachita_ErrNotFound => "cachita: cache not found"
  | cachita_ErrExpired => "cachita: cache expired"
  end.

(** [cachita.IsErrorOk]: the error is one of the two sentinels. *)
Definition cachita_IsErrorOk (e : error) : bool :=
  match e with
  | cachita_ErrNotFound | cachita_ErrExpired => true
  | _ => false
  end.

(** The test [err != nil && !cachita.IsErrorOk(err)] of [List] and
    [getListCache]. *)
Definition isHard (e : option error) : bool :=
  match e with
  | Some e' => negb (cachita_IsErrorOk e')
  | None => false
  end.

(** What the runtime panics with on a nil pointer. *)
Definition nilDereference : error :=
  errorString "runtime error: invalid memory address or nil pointer dereference".

(** [url.Userinfo] and [url.URL]. *)
Record Userinfo := { username : string; password : string; passwordSet : bool }.

Record URL := {
  Scheme : string;
  Opaque : string;
  User : option Userinfo;
  Host : string;
  Path : string;
  RawPath : string;
  ForceQuery : bool;
  RawQuery : string;
  Fragment : string
}.

(** [url.UserPassword(username, password)]. *)
Definition UserPassword (u p : string) : Userinfo :=
  {| username := u; password := p; passwordSet := true |}.

(** The URL [http://[user:password@]hostport] as package [net/url]
    represents it. *)
Definition httpURL (user : option Userinfo) (hostport : string) : URL :=
  {| Scheme := "http"; Opaque := ""; User := user; Host := hostport; Path := "";
     RawPath := ""; ForceQuery := false; RawQuery := ""; Fragment := "" |}.

(** A response body: the bytes that can be read from it, and the error the
    read ends with, if any. *)
Record ReadCloser := { data : string; readErr : option error }.

(** [ioutil.ReadAll]. *)
Definition ioutil_ReadAll (b : ReadCloser) : string * option error :=
  (data b, readErr b).

(** [http.Response], [http.Request] and [http.Client], with the fields the
    client sets or reads. *)
Record Response := { StatusCode : Z; Body : ReadCloser }.

Record Request := {
  Method : string;
  RawURL : string;
  UserAgent : string;
  ReqBody : option string
}.

(** The two kinds of [*http.Client] the package uses: the one embedded in
    [client] (given to [NewClient], or [http.DefaultClient]), and the one
    [proxyIp] builds, whose transport goes through a proxy. *)
Inductive HttpClient :=
| embeddedClient
| proxiedClient (proxyURL : option URL) (timeoutSeconds : Z).

Module GoHttp.

Local Open Scope Z_scope.

Definition MethodGet : string := "GET".
Definition StatusOK : Z := 200.
Definition StatusBadRequest : Z := 400.
Definition StatusTooManyRequests : Z := 429.

(** [http.StatusText]. *)
Definition StatusText (code : Z) : string :=
  match code with
  | 100 => "Continue"
  | 101 => "Switching Protocols"
  | 102 => "Processing"
  | 103 => "Early Hints"
  | 200 => "OK"
  | 201 => "Created"
  | 202 => "Accepted"
  | 203 => "Non-Authoritative Information"
  | 204 => "No Content"
  | 205 => "Reset Content"
  | 206 => "Partial Content"
  | 207 => "Multi-Status"
  | 208 => "Already Reported"
  | 226 => "IM Used"
  | 300 => "Multiple Choices"
  | 301 => "Moved Permanently"
  | 302 => "Found"
  | 303 => "See Other"
  | 304 => "Not Modified"
  | 305 => "Use Proxy"
  | 307 => "Temporary Redirect"
  | 308 => "Permanent Redirect"
  | 400 => "Bad Request"
  | 401 => "Unauthorized"
  | 402 => "Payment Required"
  | 403 => "Forbidden"
  | 404 => "Not Found"
  | 405 => "Method Not Allowed"
  | 406 => "Not Acceptable"
  | 407 => "Proxy Authentication Required"
  | 408 => "Request Timeout"
  | 409 => "Conflict"
  | 410 => "Gone"
  | 411 => "Length Required"
  | 412 => "Precondition Failed"
  | 413 => "Request Entity Too Large"
  | 414 => "Request URI Too Long"
  | 415 => "Unsupported Media Type"
  | 416 => "Requested Range Not Satisfiable"
  | 417 => "Expectation Failed"
  | 418 => "I'm a teapot"
  | 421 => "Misdirected Request"
  | 422 => "Unprocessable Entity"
  | 423 => "Locked"
  | 424 => "Failed Dependency"
  | 425 => "Too Early"
  | 426 => "Upgrade Required"
  | 428 => "Precondition Required"
  | 429 => "Too Many Requests"
  | 431 => "Request Header Fields Too Large"
  | 451 => "Unavailable For Legal Reasons"
  | 500 => "Internal Server Error"
  | 501 => "Not Implemented"
  | 502 => "Bad Gateway"
  | 503 => "Service Unavailable"
  | 504 => "Gateway Timeout"
  | 505 => "HTTP Version Not Supported"
  | 506 => "Variant Also Negotiates"
  | 507 => "Insufficient Storage"
  | 508 => "Loop Detected"
  | 510 => "Not Extended"
  | 511 => "Network Authentication Required"
  | _ => ""
  end.

(** The bytes of an HTTP token ([httpguts.IsTokenRune]). *)
Definition isTokenByte (c : ascii) : bool :=
  let n := byte c in
  ((48 <=? n) && (n <=? 57) || (65 <=? n) && (n <=? 90) || (97 <=? n) && (n <=? 122)
   || (n =? 33) || (35 <=? n) && (n <=? 39) || (n =? 42) || (n =? 43) || (n =? 45)
   || (n =? 46) || (n =? 94) || (n =? 95) || (n =? 96) || (n =? 124) || (n =? 126))%N.

(** [validMethod] of package [net/http]. *)
Definition validMethod (method : string) : bool :=
  negb (String.eqb method "") && GoString.forallb isTokenByte method.

End GoHttp.

Import GoHttp.

(** ** [bufio.Scanner] with the default split function, [bufio.ScanLines] *)

Module GoBufio.

(** [bufio.MaxScanTokenSize]: the scanner's buffer holds at most this many
    bytes, a line together with its newline must fit it. *)
Definition MaxScanTokenSize : N := 65536.

(** [dropCR], on the reversed line. *)
Definition dropCR_rev (cur : string) : string :=
  match cur with
  | String c r => if Ascii.eqb c cr then r else cur
  | EmptyString => cur
  end.

(** The tokens [Scan] yields until it returns false: [cur] holds the bytes
    of the current line, last byte first, and [n] counts them.  Each token is
    a line without its newline and without one trailing carriage return; an
    empty last line is no token; a line that does not fit the buffer ends
    the scan ([bufio.ErrTooLong], which [List] does not look at). *)
Fixpoint scan (s cur : string) (n : N) : list string :=
  match s with
  | EmptyString =>
      if (n =? 0)%N then []
      else if (n <? MaxScanTokenSize)%N then [GoString.rev (dropCR_rev cur)] else []
  | String c r =>
      if Ascii.eqb c lf then
        if (n <? MaxScanTokenSize)%N
        then GoString.rev (dropCR_rev cur) :: scan r "" 0%N
        else []
      else scan r (String c cur) (n + 1)%N
  end.

Definition scanLines (b : string) : list string := scan b "" 0%N.

End GoBufio.

Import GoBufio.

(** ** The environment of the package *)

(** What the package calls and does not define.  The state of the outside
    world (the network, the clock, the disk) is a value of type [World]; a
    call that reaches it takes the world and returns the next one.

    - [url_Parse]: [url.Parse]; [URL_String]: the method [String()] of a
      [*url.URL];
    - [json_Decode]: [json.NewDecoder(body).Decode(pl)] for the struct [pl]
      of [formatError], whose only field is tagged [detail]: the value of
      that field after decoding ([""] when the object has none), or the
      decoder's error;
    - [IsValidIp], [ParseUrl], [LiftRLimits]: the helpers of package
      [go-helpers]; [ParseUrl] returns a pointer (possibly nil) or panics;
    - [Do]: the method [Do] of an [*http.Client];
    - [cache_Get], [cache_Put]: the methods of the [cachita.Cache] in
      [listCache]; [cache_Get] returns what it decoded into the map it was
      handed, and its error;
    - [maxRetries]: how many times [NextBackOff] of the default
      [ExponentialBackOff] answers with a delay before it answers [Stop]
      (it stops once its [MaxElapsedTime] has passed);
    - [GOOS], [GOARCH], [UseIPv4Proxy]: constants of packages [runtime] and
      [quiver]. *)
Record Env := {
  World : Type;
  GOOS : string;
  GOARCH : string;
  UseIPv4Proxy : Z;
  url_Parse : string → URL + error;
  URL_String : URL → string;
  json_Decode : ReadCloser → string + error;
  IsValidIp : string → bool;
  ParseUrl : string → option URL + error;
  LiftRLimits : World → option error * World;
  Do : HttpClient → Request → World → (Response + error) * World;
  cache_Get : string → World → (gmap string string * option error) * World;
  cache_Put : string → gmap string string → World → option error * World;
  maxRetries : nat
}.

(** ** Effects: a state and panic monad *)

(** What a run leaves behind, newest event first: requests handed to a
    client's [Do], writes to [os.Stderr] (the format string handed to
    [fmt.Fprintf]), operations on [proxiesMu] and on the map [proxies], and
    the calls of the worker pool. *)
Inductive event :=
| EvDo (cl : HttpClient) (r : Request)
| EvStderr (format : string)
| EvLock
| EvUnlock
| EvStore (ip : string) (u : option URL)
| EvLen
| EvRun (line : string)
| EvWait.

(** A computation either returns a value or panics, and leaves a state. *)
Inductive Outcome (S A : Type) :=
| Ret (a : A) (s : S)
| Panic (e : error) (s : S).

Arguments Ret {S A} a s.
Arguments Panic {S A} e s.

Definition M (S A : Type) : Type := S → Outcome S A.

Definition ret {S A} (a : A) : M S A := fun s => Ret a s.

Definition bind {S A B} (m : M S A) (k : A → M S B) : M S B :=
  fun s => match m s with
           | Ret a s' => k a s'
           | Panic e s' => Panic e s'
           end.

Definition panic {S A} (e : error) : M S A := fun s => Panic e s.

Notation "'let*' p := m 'in' k" := (bind m (fun p => k))
  (at level 10, p pattern, m at level 100, k at level 200).
Notation "m ;;; k" := (bind m (fun _ => k))
  (at level 100, right associativity).

(** [for _, x := range l { f(x) }]. *)
Fixpoint forEach {S A} (f : A → M S unit) (l : list A) : M S unit :=
  match l with
  | [] => ret tt
  | x :: r => f x ;;; forEach f r
  end.

(** The value a run returned, its final state, and the state it left in
    either case. *)
Definition returned {S A} (o : Outcome S A) : option A :=
  match o with Ret a _ => Some a | Panic _ _ => None end.

Definition final {S A} (o : Outcome S A) : S :=
  match o with Ret _ s => s | Panic _ s => s end.

Definition panicked {S A} (o : Outcome S A) : option error :=
  match o with Ret _ _ => None | Panic e _ => Some e end.


(** ** Package [rsocks] *)

Definition Version : string := "v1".

(** The fields of [client] that are set once, by [NewClient]: the embedded
    [*http.Client] and [listUrl].  The map [proxies] is part of the state
    below; [listCache] is reached through [cache_Get] and [cache_Put]. *)
Record client := { Client : HttpClient; listUrl : string }.

(** The map [List] returns is a reference: nil, or the very map in the field
    [proxies] of the client. *)
Inductive mapref := nilMap | c_proxies.

(** The pool of package [go-helpers]: [NewWgExec(n)] runs at most [n] of the
    functions handed to [Run] at a time, and [Wait] returns when all of them
    have returned. *)
Record WgExec := { maxWorkers : nat }.

Definition NewWgExec (n : nat) : WgExec := {| maxWorkers := n |}.

(** The URL of the IP echo service and the user agent of the probe. *)
Definition probeURL : string := "http://ifconfig.io/ip".

Definition probeUserAgent : string :=
  "Mozilla/5.0 (Windows NT 10.0; Win64; x64) AppleWebKit/537.36 (KHTML, like Gecko) Chrome/58.0.3029.81 Safari/537.36".

(** The [switch len(s)] of [parseProxyLine]: the text handed to
    [url.Parse], if the line has four tokens or two. *)
Definition lineURL (s : list string) : option string :=
  match s with
  | [s0; s1; s2; s3] => Some ("http://" +:+ s2 +:+ ":" +:+ s3 +:+ "@" +:+ s0 +:+ ":" +:+ s1)
  | [s0; s1] => Some ("http://" +:+ s0 +:+ ":" +:+ s1)
  | _ => None
  end.

Section Rsocks.

Variable E : Env.

(** The state a call runs in: the outside world, the map [proxies] of the
    client, and the events so far. *)
Record State := {
  world : World E;
  proxies : gmap string (option URL);
  trace : list event
}.

Definition emit (e : event) : M State unit :=
  fun s => Ret tt {| world := world s; proxies := proxies s; trace := e :: trace s |}.

(** A call into the outside world. *)
Definition withWorld (s : State) (w : World E) : State :=
  {| world := w; proxies := proxies s; trace := trace s |}.

Definition call {A} (f : World E → A * World E) : M State A :=
  fun s => let (a, w) := f (world s) in Ret a (withWorld s w).

(** [len(c.proxies)] and [c.proxies[ip] = u]. *)
Definition lenProxies : M State nat :=
  fun s => Ret (size (proxies s))
               {| world := world s; proxies := proxies s; trace := EvLen :: trace s |}.

Definition storeProxy (ip : string) (u : option URL) : M State unit :=
  fun s => Ret tt {| world := world s; proxies := <[ip := u]> (proxies s);
                     trace := EvStore ip u :: trace s |}.

Definition readProxies : M State (gmap string (option URL)) :=
  fun s => Ret (proxies s) s.

(** [c.proxiesMu.Lock()] and [c.proxiesMu.Unlock()]. *)
Definition Lock : M State unit := emit EvLock.
Definition Unlock : M State unit := emit EvUnlock.

(** [fmt.Fprintf(os.Stderr, format)]. *)
Definition Fprintf_Stderr (format : string) : M State unit := emit (EvStderr format).

(** [h.PanicOnError]. *)
Definition PanicOnError (e : option error) : M State unit :=
  match e with
  | Some e' => panic e'
  | None => ret tt
  end.

(** [wg.Run(f, p)] and [wg.Wait()].  The functions of the pool touch the
    state they share, the map, under [proxiesMu] only: a run of the pool is
    a run of its functions one after the other.  They are run here in the
    order they were handed over. *)
Definition WgExec_Run (wg : WgExec) (f : string → M State unit) (p : string) : M State unit :=
  emit (EvRun p) ;;; f p.

Definition WgExec_Wait (wg : WgExec) : M State unit := emit EvWait.

(** The constant [userAgent]. *)
Definition userAgent : string :=
  "rsocks_client/" +:+ Version +:+ " " +:+ GOOS E +:+ " " +:+ GOARCH E.

(** [http.NewRequest]: the method is checked and the URL parsed. *)
Definition http_NewRequest (method u : string) (body : option string) : Request + error :=
  let method := if String.eqb method "" then "GET" else method in
  if negb (validMethod method)
  then inr (errorString ("net/http: invalid method " +:+ quoted method))
  else match url_Parse E u with
       | inr e => inr e
       | inl _ => inl {| Method := method; RawURL := u; UserAgent := ""; ReqBody := body |}
       end.

(** [r.Header.Set("User-Agent", useragent)]. *)
Definition Header_Set_UserAgent (r : Request) (useragent : string) : Request :=
  {| Method := Method r; RawURL := RawURL r; UserAgent := useragent; ReqBody := ReqBody r |}.

(** [cl.Do(r)]. *)
Definition Client_Do (cl : HttpClient) (r : Request) : M State (Response + error) :=
  emit (EvDo cl r) ;;; call (Do E cl r).

(** [func formatError(r *http.Response) error]. *)
Definition formatError (r : Response) : M State error :=
  let* e_err :=
    match json_Decode E (Body r) with
    | inr e => Fprintf_Stderr (Error_ e) ;;; ret ""
    | inl ErrorMessage =>
        if negb (String.eqb ErrorMessage "") then ret ErrorMessage
        else ret ("error statusCode code " +:+ itoa (StatusCode r) +:+ ": "
                  +:+ StatusText (StatusCode r))
    end in
  ret (apiErrorPtr {| err := e_err; statusCode := StatusCode r |}).

(** [func request(cl, method, u, useragent, body)]: the response, or an error. *)
Definition request (cl : HttpClient) (method u useragent : string) (body : option string)
  : M State (option Response * option error) :=
  match http_NewRequest method u body with
  | inr e => ret (None, Some e)
  | inl r =>
      let r := Header_Set_UserAgent r useragent in
      let* res := Client_Do cl r in
      match res with
      | inr e => ret (None, Some e)
      | inl resp =>
          if (StatusBadRequest <=? StatusCode resp)%Z
          then let* e := formatError resp in ret (None, Some e)
          else ret (Some resp, None)
      end
  end.

(** [backoff.Retry(o, b)] for the default exponential policy: the operation
    is called until it returns nil or the policy answers [Stop].  [v] holds
    the variables the operation captures. *)
Fixpoint backoff_Retry {V} (o : V → M State (V * option error)) (retries : nat) (v : V)
  : M State (V * option error) :=
  let* (v', e) := o v in
  match e with
  | None => ret (v', None)
  | Some e' =>
      match retries with
      | O => ret (v', Some e')
      | S n => backoff_Retry o n v'
      end
  end.

(** [func retryRequest(cl, method, u, useragent, body) (resp, err)]: the
    operation assigns the results [resp] and [err]; what [Retry] returns is
    dropped. *)
Definition retryRequest (cl : HttpClient) (method u useragent : string) (body : option string)
  : M State (option Response * option error) :=
  let* (v, _) :=
    backoff_Retry
      (fun _ : option Response * option error =>
         let* (resp, e) := request cl method u useragent body in
         match resp with
         | Some r =>
             if (StatusTooManyRequests <=? StatusCode r)%Z
             then ret ((resp, e), Some (errorString "try again"))
             else ret ((resp, e), None)
         | None => ret ((resp, e), None)
         end)
      (maxRetries E) (None, None) in
  ret v.

(** [func (c *client) get(u string)]. *)
Definition get (c : client) (u : string) : M State (option Response * option error) :=
  retryRequest (Client c) MethodGet u userAgent None.

(** [func proxyIp(proxyUrl *url.URL) (ip string, err error)]. *)
Definition proxyIp (proxyUrl : option URL) : M State (string * option error) :=
  let c := proxiedClient proxyUrl 60 in
  let* (r, e) := retryRequest c MethodGet probeURL probeUserAgent None in
  match e with
  | Some e' => ret ("", Some e')
  | None =>
      match r with
      | None => panic nilDereference
      | Some r =>
          let (b, e) := ioutil_ReadAll (Body r) in
          match e with
          | Some e' => ret ("", Some e')
          | None =>
              if negb (StatusCode r =? 200)%Z
              then ret ("", Some (errorString ("invalid Status Code: " +:+ itoa (StatusCode r))))
              else
                let ip := TrimSpace b in
                if negb (IsValidIp E ip)
                then ret ("", Some (errorString ("invalid IP: " +:+ ip)))
                else ret (ip, None)
          end
      end
  end.

(** [func parseProxyLine(line string) (ipStr string, u *url.URL, err error)]. *)
Definition parseProxyLine (line : string) : M State (string * option URL * option error) :=
  let s := Split (TrimSpace line) ":"%char in
  match lineURL s with
  | None => ret ("", None, Some (errorString ("invalid proxy line " +:+ line)))
  | Some lu =>
      match url_Parse E lu with
      | inr e =>
          ret ("", None,
               Some (errorString (Error_ e +:+ " parsing line " +:+ line +:+ " URL " +:+ lu)))
      | inl u =>
          let* (ipStr, e) := proxyIp (Some u) in
          match e with
          | Some e' =>
              ret ("", None,
                   Some (errorString (Error_ e' +:+ " getting IP for line " +:+ line
                                      +:+ " URL " +:+ lu)))
          | None => ret (ipStr, Some u, None)
          end
      end
  end.

(** The function [List] hands to the pool for each line. *)
Definition worker (line : string) : M State unit :=
  let* (ip, u, e) := parseProxyLine line in
  match e with
  | Some e' => Fprintf_Stderr (Error_ e' +:+ String lf "")
  | None => Lock ;;; storeProxy ip u ;;; Unlock
  end.

(** [func (c *client) getListCache(k string) error]. *)
Definition getListCache (k : string) : M State (option error) :=
  let* (l, e) := call (cache_Get E k) in
  if isHard e
  then ret e
  else
    (if (0 <? size l)%nat
     then forEach (fun '(ip, u) =>
                     match ParseUrl E u with
                     | inr p => panic p
                     | inl ptr => storeProxy ip ptr
                     end) (map_to_list l)
     else ret tt) ;;;
    ret None.

(** The loop of [putListCache]: [l[ip] = u.String()]. *)
Fixpoint stringsOf (ps : list (string * option URL)) (l : gmap string string)
  : M State (gmap string string) :=
  match ps with
  | [] => ret l
  | (ip, u) :: r =>
      match u with
      | None => panic nilDereference
      | Some u' => stringsOf r (<[ip := URL_String E u']> l)
      end
  end.

(** [func (c *client) putListCache(k string) error]. *)
Definition putListCache (k : string) : M State (option error) :=
  let* m := readProxies in
  let* l := stringsOf (map_to_list m) ∅ in
  call (cache_Put E k l).

(** The loop [for scanner.Scan()] of [List]. *)
Definition scanLoop (wg : WgExec) (lines : list string) : M State unit :=
  forEach (fun l => if String.eqb l "" then ret tt else WgExec_Run wg worker l) lines.

(** [List] from its line 59 on: the fetch of the list, the validation of
    its lines and the write to the cache. *)
Definition List_fetch (c : client) (k : string) : M State (mapref * option error) :=
  let* (r, e) := get c (listUrl c) in
  match e with
  | Some e' => ret (nilMap, Some e')
  | None =>
      match r with
      | None => panic nilDereference
      | Some r =>
          let (b, e) := ioutil_ReadAll (Body r) in
          match e with
          | Some e' => ret (nilMap, Some e')
          | None =>
              let* e := call (LiftRLimits E) in
              PanicOnError e ;;;
              let wg := NewWgExec 50 in
              scanLoop wg (scanLines b) ;;;
              WgExec_Wait wg ;;;
              let* e := putListCache k in
              match e with
              | Some e' => ret (nilMap, Some e')
              | None => ret (c_proxies, None)
              end
          end
      end
  end.

(** [func (c *client) List() (map[string]*url.URL, error)]. *)
Definition List (c : client) : M State (mapref * option error) :=
  let k := "list_" +:+ listUrl c in
  let* e := getListCache k in
  if isHard e
  then ret (nilMap, e)
  else
    let* n := lenProxies in
    if (0 <? n)%nat then ret (c_proxies, None)
    else List_fetch c k.

(** [func (c *client) Total() int]: the deferred [Unlock] runs once the
    result has been computed. *)
Definition Total : M State nat :=
  Lock ;;;
  let* n := lenProxies in
  Unlock ;;;
  ret n.

(** [func (c *client) Type() int] and [func (c *client) Name() string]. *)
Definition Type_ : Z := UseIPv4Proxy E.

Definition Name : string := "rsocks".

(** The map a reference stands for in a state. *)
Definition deref (s : State) (r : mapref) : gmap string (option URL) :=
  match r with
  | nilMap => ∅
  | c_proxies => proxies s
  end.

End Rsocks.

Arguments deref {E} s r.
Arguments world {E} s.
Arguments withWorld {E} s w.
Arguments proxies {E} s.
Arguments trace {E} s.

(** The state after [cl.Do(r)] was called in [s] and the world moved on to
    [w]; the state after a line was written to [os.Stderr]; the state after
    an event. *)
Definition afterDo {E} (s : State E) (cl : HttpClient) (r : Request) (w : World E) : State E :=
  {| world := w; proxies := proxies s; trace := EvDo cl r :: trace s |}.

Definition logged {E} (s : State E) (format : string) : State E :=
  {| world := world s; proxies := proxies s; trace := EvStderr format :: trace s |}.

Definition after {E} (s : State E) (e : event) : State E :=
  {| world := world s; proxies := proxies s; trace := e :: trace s |}.

(** The state after a worker stored [u] under [ip], with the mutex taken
    and given back. *)
Definition stored {E} (s : State E) (ip : string) (u : option URL) : State E :=
  {| world := world s; proxies := <[ip := u]> (proxies s);
     trace := EvUnlock :: EvStore ip u :: EvLock :: trace s |}.

(** The events of a run: what the final state's trace has on top of the
    initial one is read off with [new_events]. *)
Fixpoint new_events (n : nat) (t : list event) : list event :=
  match n, t with
  | S k, e :: r => e :: new_events k r
  | _, _ => []
  end.

Definition events_since {E} (s s' : State E) : list event :=
  new_events (length (trace s') - length (trace s)) (trace s').

(** ** Tokens of a well-formed line *)

Module Token.

Definition isDigit (c : ascii) : bool := ((48 <=? byte c) && (byte c <=? 57))%N.

Definition isAlpha (c : ascii) : bool :=
  ((65 <=? byte c) && (byte c <=? 90) || (97 <=? byte c) && (byte c <=? 122))%N.

(** The bytes of a host name or of an IPv4 address. *)
Definition isHostByte (c : ascii) : bool :=
  isDigit c || isAlpha c || (byte c =? 45)%N || (byte c =? 46)%N.

(** The unreserved bytes of RFC 3986, of which user names and passwords that
    need no escaping are made. *)
Definition isUnreserved (c : ascii) : bool :=
  isHostByte c || (byte c =? 95)%N || (byte c =? 126)%N.

Definition host (s : string) : Prop := GoString.forallb isHostByte s = true.
Definition port (s : string) : Prop := GoString.forallb isDigit s = true.
Definition credential (s : string) : Prop := GoString.forallb isUnreserved s = true.

End Token.

(** What the client needs of [url.Parse] on the URLs it builds: a host of
    host bytes, a port of digits and, if any, a user name and a password of
    unreserved bytes are read back as they were written. *)
Definition url_Parse_reads_authority (parse : string → URL + error) : Prop :=
  (∀ h p, Token.host h → Token.port p →
     parse ("http://" +:+ h +:+ ":" +:+ p) = inl (httpURL None (h +:+ ":" +:+ p)))
  ∧ (∀ h p u w, Token.host h → Token.port p → Token.credential u → Token.credential w →
       parse ("http://" +:+ u +:+ ":" +:+ w +:+ "@" +:+ h +:+ ":" +:+ p)
       = inl (httpURL (Some (UserPassword u w)) (h +:+ ":" +:+ p))).

(** ** Test doubles: a scripted environment *)

Module Fake.

(** [strings.Cut] at the first, and at the last, occurrence of a byte. *)
Fixpoint cut (c : ascii) (s : string) : option (string * string) :=
  match s with
  | EmptyString => None
  | String x r =>
      if Ascii.eqb x c then Some (EmptyString, r)
      else match cut c r with
           | Some (a, b) => Some (String x a, b)
           | None => None
           end
  end.

Fixpoint cutLast (c : ascii) (s : string) : option (string * string) :=
  match s with
  | EmptyString => None
  | String x r =>
      match cutLast c r with
      | Some (a, b) => Some (String x a, b)
      | None => if Ascii.eqb x c then Some (EmptyString, r) else None
      end
  end.

Fixpoint stripPrefix (p s : string) : option string :=
  match p, s with
  | EmptyString, _ => Some s
  | String a p', String b s' => if Ascii.eqb a b then stripPrefix p' s' else None
  | String _ _, EmptyString => None
  end.

(** [validOptionalPort] on what follows the last colon of the host. *)
Definition validOptionalPort (hostport : string) : bool :=
  match cutLast ":"%char hostport with
  | None => true
  | Some (_, p) => GoString.forallb Token.isDigit p
  end.

(** A parser for the URLs [http://[user[:password]@]host[:port][/path]]:
    the authority ends at the first slash, the user information at the last
    [@], the user name at the first colon. *)
Definition parse (raw : string) : URL + error :=
  match stripPrefix "http://" raw with
  | None => inr (errorString ("parse " +:+ raw +:+ ": unsupported URL"))
  | Some rest =>
      let (authority, path) :=
        match cut "/"%char rest with
        | None => (rest, EmptyString)
        | Some (a, p) => (a, String "/"%char p)
        end in
      let (user, hostport) :=
        match cutLast "@"%char authority with
        | None => (None, authority)
        | Some (ui, h) =>
            (Some match cut ":"%char ui with
                  | None => {| username := ui; password := ""; passwordSet := false |}
                  | Some (u, w) => UserPassword u w
                  end, h)
        end in
      if validOptionalPort hostport
      then inl {| Scheme := "http"; Opaque := ""; User := user; Host := hostport;
                  Path := path; RawPath := ""; ForceQuery := false; RawQuery := "";
                  Fragment := "" |}
      else inr (errorString ("parse " +:+ raw +:+ ": invalid port after host"))
  end.

Definition render (u : URL) : string :=
  Scheme u +:+ "://"
  +:+ match User u with
      | None => ""
      | Some ui =>
          username ui +:+ (if passwordSet ui then ":" +:+ password ui else "") +:+ "@"
      end
  +:+ Host u +:+ Path u.

(** A [ParseUrl] that panics on a text [parse] refuses. *)
Definition mustParse (s : string) : option URL + error :=
  match parse s with
  | inl u => inl (Some u)
  | inr e => inr e
  end.

(** A decoder that knows three bodies: the empty one ([io.EOF]), the object
    with no member, and the object whose one member is a [detail] string
    without escapes.  Anything else is a syntax error to it. *)
Definition decode (b : ReadCloser) : string + error :=
  if String.eqb (data b) "" then
    match readErr b with
    | Some e => inr e
    | None => inr (errorString "EOF")
    end
  else if String.eqb (data b) "{}" then inl ""
  else
    match stripPrefix ("{" +:+ quoted "detail" +:+ ":" +:+ dquote) (data b) with
    | Some rest =>
        match cut (ascii_of_N 34) rest with
        | Some (v, "}") =>
            if GoString.forallb (fun c => negb (byte c =? 92)%N) v then inl v
            else inr (errorString "invalid character in string escape code")
        | _ => inr (errorString "unexpected end of JSON input")
        end
    | None => inr (errorString "invalid character looking for beginning of value")
    end.

(** The value of a run of decimal digits. *)
Fixpoint decimal (s : string) (acc : N) : option N :=
  match s with
  | EmptyString => Some acc
  | String c r =>
      if Token.isDigit c then decimal r (10 * acc + (byte c - 48))%N else None
  end.

Definition isOctet (s : string) : bool :=
  match s with
  | EmptyString => false
  | _ => (String.length s <=? 3)%nat
         && match decimal s 0%N with Some n => (n <=? 255)%N | None => false end
  end.

(** An [IsValidIp] that knows the dotted quads of IPv4 only. *)
Definition isIPv4 (s : string) : bool :=
  match Split s "."%char with
  | [a; b; c; d] => isOctet a && isOctet b && isOctet c && isOctet d
  | _ => false
  end.

(** The world of the test doubles: the number of round trips so far, and
    the entries of the cache. *)
Record Machine := { calls : nat; disk : gmap string (gmap string string) }.

(** A script: what the transport answers to a request, given the number of
    round trips before it, and the errors the cache and the process limits
    are to fail with, if any. *)
Record Script := {
  transport : HttpClient → Request → nat → Response + error;
  getError : option error;
  putError : option error;
  rlimitError : option error
}.

Definition env (sc : Script) : Env := {|
  World := Machine;
  GOOS := "linux";
  GOARCH := "amd64";
  UseIPv4Proxy := 0;
  url_Parse := parse;
  URL_String := render;
  json_Decode := decode;
  IsValidIp := isIPv4;
  ParseUrl := mustParse;
  LiftRLimits := fun w => (rlimitError sc, w);
  Do := fun cl r w => (transport sc cl r (calls w), {| calls := S (calls w); disk := disk w |});
  cache_Get := fun k w =>
    match getError sc with
    | Some e => ((∅, Some e), w)
    | None =>
        match disk w !! k with
        | Some l => ((l, None), w)
        | None => ((∅, Some cachita_ErrNotFound), w)
        end
    end;
  cache_Put := fun k l w =>
    match putError sc with
    | Some e => (Some e, w)
    | None => (None, {| calls := calls w; disk := <[k := l]> (disk w) |})
    end;
  maxRetries := 5
|}.

(** A response with a body that reads without error. *)
Definition response (code : Z) (text : string) : Response :=
  {| StatusCode := code; Body := {| data := text; readErr := None |} |}.

(** A fresh client on an empty cache. *)
Definition fresh (sc : Script) : State (env sc) :=
  Build_State (env sc) {| calls := 0; disk := ∅ |} ∅ [].

End Fake.

(** ** The probe *)

(** The request [proxyIp] sends through the candidate proxy. *)
Definition probeRequest : Request :=
  {| Method := MethodGet; RawURL := probeURL; UserAgent := probeUserAgent; ReqBody := None |}.

(** A probe response is accepted when its status is 200 and its body, read
    to its end, is an IP address once trimmed. *)
Definition probeAccepted (E : Env) (resp : Response) : bool :=
  (StatusCode resp =? 200)%Z
  && match readErr (Body resp) with None => true | Some _ => false end
  && IsValidIp E (TrimSpace (data (Body resp))).

Definition isEvStderr (e : event) : Prop :=
  match e with EvStderr _ => True | _ => False end.

(** ** The lines of a list, one after the other *)

(** What [parseProxyLine] returned for each line the loop of [List] handed
    to the pool, in that order, when the loop starts in [s]. *)
Fixpoint lineResults (E : Env) (lines : list string) (s : State E)
  : list (string * option URL * option error) :=
  match lines with
  | [] => []
  | l :: r =>
      if String.eqb l "" then lineResults E r s
      else
        let s0 := after s (EvRun l) in
        match parseProxyLine E l s0 with
        | Ret res _ => res :: lineResults E r (final (worker E l s0))
        | Panic _ _ => []
        end
  end.

(** The results without an error: the IP and the URL of each. *)
Definition successes (rs : list (string * option URL * option error))
  : list (string * option URL) :=
  omap (fun r => match r with
                 | (ip, u, None) => Some (ip, u)
                 | (_, _, Some _) => None
                 end) rs.

(** The map after the pairs of [ps] were stored in [m], first pair first. *)
Definition inserted (ps : list (string * option URL)) (m : gmap string (option URL))
  : gmap string (option URL) :=
  foldl (fun m p => <[p.1 := p.2]> m) m ps.

(** No pointer of the map is nil. *)
Definition allURLs (m : gmap string (option URL)) : Prop :=
  map_Forall (fun _ u => is_Some u) m.

(** The request [get] sends for the list. *)
Definition listRequest (E : Env) (c : client) : Request :=
  {| Method := MethodGet; RawURL := listUrl c; UserAgent := userAgent E; ReqBody := None |}.

(** The state after [Total] ran in [s]: the length was read between [Lock]
    and [Unlock]. *)
Definition counted {E} (s : State E) : State E :=
  {| world := world s; proxies := proxies s;
     trace := EvUnlock :: EvLen :: EvLock :: trace s |}.

(** What [List] returns: nil and an error, or the client's map and none. *)
Definition answers {E} (m : M (State E) (mapref * option error)) : Prop :=
  ∀ s r e s', m s = Ret (r, e) s' →
    (r = nilMap ∧ e ≠ None) ∨ (r = c_proxies ∧ e = None).

(** A computation only adds events. *)
Definition grows {E A} (m : M (State E) A) : Prop :=
  ∀ s, ∃ t, trace (final (m s)) = t ++ trace s.

(** ** Measures of a run *)

(** The number of requests handed to a client among the events [t]. *)
Fixpoint countDo (t : list event) : nat :=
  match t with
  | [] => 0
  | EvDo _ _ :: r => S (countDo r)
  | _ :: r => countDo r
  end.

(** The message [formatError] gives the error of a response. *)
Definition errorMessage (E : Env) (resp : Response) : string :=
  match json_Decode E (Body resp) with
  | inl d =>
      if String.eqb d ""
      then "error statusCode code " +:+ itoa (StatusCode resp) +:+ ": "
           +:+ StatusText (StatusCode resp)
      else d
  | inr _ => ""
  end.

(** A property of the map that a computation keeps, however it ends. *)
Definition preserves {E A} (P : gmap string (option URL) → Prop) (m : M (State E) A) : Prop :=
  ∀ s, P (proxies s) → P (proxies (final (m s))).

(** Every entry is keyed by an address [IsValidIp] accepts and holds a URL. *)
Definition validEntries (E : Env) (m : gmap string (option URL)) : Prop :=
  map_Forall (fun ip u => IsValidIp E ip = true ∧ is_Some u) m.

(** The pointer [getListCache] stores for a cached text, and the entries it
    makes of a cached snapshot. *)
Definition cachedURL (E : Env) (u : string) : option URL :=
  match ParseUrl E u with inl p => p | inr _ => None end.

Definition loaded (E : Env) (l : gmap string string) : gmap string (option URL) :=
  cachedURL E <$> l.

(** [ParseUrl] does not panic on the texts of a snapshot. *)
Definition parses (E : Env) (l : gmap string string) : Prop :=
  map_Forall (fun _ u => ∃ p, ParseUrl E u = inl p) l.

(** What [List] returns when the list cannot be fetched: the error of
    [url.Parse] for the URL of the list, the error of the client, the
    [*apiError] of a response from 400 on, or the error the body of the
    response ends with; nothing, when the list was fetched and read. *)
Definition fetchError (E : Env) (c : client) (w : World E) : option error :=
  match url_Parse E (listUrl c) with
  | inr e => Some e
  | inl _ =>
      match (Do E (Client c) (listRequest E c) w).1 with
      | inr e => Some e
      | inl resp =>
          if (400 <=? StatusCode resp)%Z
          then Some (apiErrorPtr {| err := errorMessage E resp;
                                    statusCode := StatusCode resp |})
          else readErr (Body resp)
      end
  end.

(** A computation returns, or panics with, the same value in every state. *)
Definition constant {E A} (m : M (State E) A) : Prop :=
  ∀ s1 s2, returned (m s1) = returned (m s2) ∧ panicked (m s1) = panicked (m s2).

(** The answer to a request does not depend on the state of the world. *)
Definition obliviousNetwork (E : Env) : Prop :=
  ∀ cl r w w', (Do E cl r w).1 = (Do E cl r w').1.

(** The snapshot [putListCache] writes for a map. *)
Definition rendered (E : Env) (m : gmap string (option URL)) : gmap string string :=
  (fun u => match u with Some u' => URL_String E u' | None => "" end) <$> m.

(** ** Scenarios *)

Module Scenario.

Definition nl : string := String lf "".

Definition listURL : string := "http://list.example/proxies.txt".

Definition c0 : client := {| Client := embeddedClient; listUrl := listURL |}.

Definition noError (t : HttpClient → Request → nat → Response + error) : Fake.Script :=
  {| Fake.transport := t; Fake.getError := None; Fake.putError := None;
     Fake.rlimitError := None |}.

(** The body [{"detail":"<text>"}]. *)
Definition detailBody (text : string) : string :=
  "{" +:+ quoted "detail" +:+ ":" +:+ quoted text +:+ "}".

(** A transport that answers 429 twice and 200 from then on. *)
Definition rateLimited : Fake.Script :=
  noError (fun _ _ n =>
             if (n <? 2)%nat then inl (Fake.response 429 (detailBody "slow down"))
             else inl (Fake.response 200 "")).

(** A transport that answers every request with one response. *)
Definition always (r : Response) : Fake.Script := noError (fun _ _ _ => inl r).

(** A list of five lines: the first and the third answer the probe with
    their address, the second and the fourth are malformed, the probe
    through the fifth times out. *)
Definition fiveLines : string :=
  "10.0.0.1:8080" +:+ nl +:+ "garbage" +:+ nl +:+ "10.0.0.2:8080:bob:secret" +:+ nl
  +:+ "a:b:c" +:+ nl +:+ "10.0.0.3:3128" +:+ nl.

Definition proxyAnswers (u : URL) : Response + error :=
  if String.eqb (Host u) "10.0.0.1:8080" then inl (Fake.response 200 ("203.0.113.7" +:+ nl))
  else if String.eqb (Host u) "10.0.0.2:8080" then inl (Fake.response 200 "203.0.113.8")
  else inr (errorString "context deadline exceeded").

Definition network (list : string) (cl : HttpClient) : Response + error :=
  match cl with
  | embeddedClient => inl (Fake.response 200 list)
  | proxiedClient (Some u) _ => proxyAnswers u
  | proxiedClient None _ => inr (errorString "no proxy")
  end.

Definition partialFailure : Fake.Script := noError (fun cl _ _ => network fiveLines cl).

(** The same network, on a process that may not raise its limits. *)
Definition limitsRefused : Fake.Script :=
  {| Fake.transport := fun cl _ _ => network fiveLines cl;
     Fake.getError := None; Fake.putError := None;
     Fake.rlimitError := Some (errorString "operation not permitted") |}.

(** The same network, with a cache whose reads fail, and with one whose
    writes fail. *)
Definition cacheUnreadable : Fake.Script :=
  {| Fake.transport := fun cl _ _ => network fiveLines cl;
     Fake.getError := Some (errorString "open /tmp/rsocks: permission denied");
     Fake.putError := None; Fake.rlimitError := None |}.

Definition cacheUnwritable : Fake.Script :=
  {| Fake.transport := fun cl _ _ => network fiveLines cl;
     Fake.getError := None;
     Fake.putError := Some (errorString "write /tmp/rsocks: no space left on device");
     Fake.rlimitError := None |}.

(** A network on which no proxy answers. *)
Definition allDead : Fake.Script :=
  noError (fun _ _ _ => inr (errorString "connection refused")).

(** A client whose cache holds the snapshot [l] for its list. *)
Definition cachedState (sc : Fake.Script) (l : gmap string string) : State (Fake.env sc) :=
  Build_State (Fake.env sc)
    {| Fake.calls := 0; Fake.disk := {[ "list_" +:+ listURL := l ]} |} ∅ [].

End Scenario.

(** * Properties *)

(** ** The monad *)

Lemma bind_Ret {S A B} (m : M S A) (k : A → M S B) s a s' :
  m s = Ret a s' → bind m k s = k a s'.
Proof. intros H. unfold bind. now rewrite H. Qed.

Lemma bind_Panic {S A B} (m : M S A) (k : A → M S B) s e s' :
  m s = Panic e s' → bind m k s = Panic e s'.
Proof. intros H. unfold bind. now rewrite H. Qed.

Lemma bind_inv_Ret {S A B} (m : M S A) (k : A → M S B) s b s' :
  bind m k s = Ret b s' → ∃ a s1, m s = Ret a s1 ∧ k a s1 = Ret b s'.
Proof.
  unfold bind. destruct (m s) as [a s1|e s1]; [|discriminate].
  intros H. now exists a, s1.
Qed.

Lemma Ret_final {S A} (o : Outcome S A) a : returned o = Some a → o = Ret a (final o).
Proof. destruct o; cbn; [intros [= ->]; reflexivity|discriminate]. Qed.

Lemma Panic_final {S A} (o : Outcome S A) e : panicked o = Some e → o = Panic e (final o).
Proof. destruct o; cbn; [discriminate|intros [= ->]; reflexivity]. Qed.

(** ** [formatError] and [request] *)

Section RequestFacts.

Variable E : Env.

(** [formatError] always returns an [*apiError] that carries the status
    code; the three branches of its message. *)
Lemma formatError_cases (r : Response) (s : State E) :
  match json_Decode E (Body r) with
  | inr e =>
      formatError E r s
      = Ret (apiErrorPtr {| err := ""; statusCode := StatusCode r |}) (logged s (Error_ e))
  | inl d =>
      formatError E r s
      = Ret (apiErrorPtr
               {| err := if String.eqb d "" 
                         then "error statusCode code " +:+ itoa (StatusCode r) +:+ ": "
                              +:+ StatusText (StatusCode r)
                         else d;
                  statusCode := StatusCode r |}) s
  end.
Proof.
  unfold formatError.
  destruct (json_Decode E (Body r)) as [d|e]; cbn.
  - destruct (String.eqb d ""); reflexivity.
  - reflexivity.
Qed.

Lemma formatError_returns (r : Response) (s : State E) :
  ∃ msg s', formatError E r s = Ret (apiErrorPtr {| err := msg; statusCode := StatusCode r |}) s'
            ∧ world s' = world s ∧ proxies s' = proxies s.
Proof.
  pose proof (formatError_cases r s) as H.
  destruct (json_Decode E (Body r)); eauto.
Qed.

(** [request] never panics, and returns either an error and no response, or
    a response below 400 and no error. *)
Lemma request_cases cl method u useragent body (s : State E) :
  ∃ s', proxies s' = proxies s ∧
    ((∃ e, request E cl method u useragent body s = Ret (None, Some e) s')
     ∨ (∃ r, request E cl method u useragent body s = Ret (Some r, None) s'
             ∧ (StatusCode r < StatusBadRequest)%Z)).
Proof.
  unfold request.
  destruct (http_NewRequest E method u body) as [r|e].
  - unfold bind, Client_Do, bind, emit, call, withWorld; cbn.
    destruct (Do E cl _ _) as [[resp|e] w]; cbn.
    + destruct (Z.leb_spec StatusBadRequest (StatusCode resp)) as [Hge|Hlt].
      * destruct (formatError_returns resp
                    {| world := w; proxies := proxies s;
                       trace := EvDo cl (Header_Set_UserAgent r useragent) :: trace s |})
          as (msg & s' & Hf & _ & Hp).
        exists s'. split; [exact Hp|]. left. rewrite Hf. cbn. eauto.
      * eexists. split; [|right; eexists; split; [reflexivity|exact Hlt]]. reflexivity.
    + eexists. split; [|left; eauto]. reflexivity.
  - exists s. split; [reflexivity|]. left. eauto.
Qed.

(** [retryRequest] makes one attempt: the operation it hands to
    [backoff.Retry] asks for another only when [request] returned a response
    of status 429 or more, and [request] returns no response from 400 on. *)
Lemma retryRequest_is_request cl method u useragent body (s : State E) :
  retryRequest E cl method u useragent body s = request E cl method u useragent body s.
Proof.
  unfold retryRequest.
  destruct (request_cases cl method u useragent body s) as (s' & _ & [[e H]|(r & H & Hlt)]).
  - destruct (maxRetries E); cbn; unfold bind; rewrite H; reflexivity.
  - assert (Hb : (StatusTooManyRequests <=? StatusCode r)%Z = false).
    { apply Z.leb_gt. unfold StatusTooManyRequests, StatusBadRequest in *. lia. }
    destruct (maxRetries E); cbn; unfold bind; rewrite H; cbn; rewrite Hb; reflexivity.
Qed.

End RequestFacts.

(** ** The retry scenario *)

(** C1, at the transport that answers 429, 429, 200: [retryRequest] makes
    one round trip and returns the error of the first 429; [List] returns
    that error to its caller. *)
Lemma retryRequest_429_429_200 :
  let run := retryRequest (Fake.env Scenario.rateLimited) embeddedClient MethodGet
               Scenario.listURL "ua" None (Fake.fresh Scenario.rateLimited) in
  returned run = Some (None, Some (apiErrorPtr {| err := "slow down"; statusCode := 429 |}))
  ∧ Fake.calls (world (final run)) = 1
  ∧ returned (List (Fake.env Scenario.rateLimited) Scenario.c0
                (Fake.fresh Scenario.rateLimited))
    = Some (nilMap, Some (apiErrorPtr {| err := "slow down"; statusCode := 429 |})).
Proof. vm_compute. auto. Qed.

(** ** The error of a response from 400 on *)

(** C2, at a 404 with an empty body and at a 404 whose body is no JSON: the
    message of the error is empty. With the body [{"detail":"not found"}]
    the message is the detail; with the body [{}] it is the fallback. *)
Lemma formatError_404_bodies :
  let run body := returned (request (Fake.env (Scenario.always (Fake.response 404 body)))
                              embeddedClient MethodGet Scenario.listURL "ua" None
                              (Fake.fresh (Scenario.always (Fake.response 404 body)))) in
  run "" = Some (None, Some (apiErrorPtr {| err := ""; statusCode := 404 |}))
  ∧ run "<html>" = Some (None, Some (apiErrorPtr {| err := ""; statusCode := 404 |}))
  ∧ run (Scenario.detailBody "not found")
    = Some (None, Some (apiErrorPtr {| err := "not found"; statusCode := 404 |}))
  ∧ run "{}"
    = Some (None, Some (apiErrorPtr {| err := "error statusCode code 404: Not Found";
                                       statusCode := 404 |})).
Proof. vm_compute. auto. Qed.

(** ** Strings *)

Section StringFacts.

Lemma append_String c s t : String c s +:+ t = String c (s +:+ t).
Proof. reflexivity. Qed.

Lemma append_empty_l t : "" +:+ t = t.
Proof. reflexivity. Qed.

Lemma append_assoc (a b c : string) : (a +:+ b) +:+ c = a +:+ (b +:+ c).
Proof. induction a as [|x a IH]; [reflexivity|]. rewrite !append_String. now f_equal. Qed.

Lemma forallb_append p (a b : string) :
  GoString.forallb p (a +:+ b) = GoString.forallb p a && GoString.forallb p b.
Proof.
  induction a as [|x a IH]; [reflexivity|].
  rewrite append_String. cbn. rewrite IH. now rewrite andb_assoc.
Qed.

Lemma forallb_impl (p q : ascii → bool) (s : string) :
  (∀ c, p c = true → q c = true) →
  GoString.forallb p s = true → GoString.forallb q s = true.
Proof.
  intros Hpq. induction s as [|x s IH]; [reflexivity|]. cbn.
  intros [Hx Hs]%andb_prop. rewrite (Hpq _ Hx). cbn. auto.
Qed.

Lemma lacks_cons sep c s : lacks sep (String c s) ↔ c ≠ sep ∧ lacks sep s.
Proof.
  unfold lacks; cbn. rewrite andb_true_iff, negb_true_iff.
  destruct (Ascii.eqb_spec c sep); intuition congruence.
Qed.

Lemma lacks_append sep a b : lacks sep (a +:+ b) ↔ lacks sep a ∧ lacks sep b.
Proof. unfold lacks. rewrite forallb_append. apply andb_true_iff. Qed.

(** A class of bytes that leaves [sep] out gives strings without [sep]. *)
Lemma forallb_lacks (p : ascii → bool) sep s :
  p sep = false → GoString.forallb p s = true → lacks sep s.
Proof.
  intros Hsep. apply forallb_impl. intros c Hc.
  destruct (Ascii.eqb_spec c sep) as [->|]; [congruence|reflexivity].
Qed.

Lemma Split_lacks sep s : lacks sep s → Split s sep = [s].
Proof.
  induction s as [|c s IH]; [reflexivity|].
  intros [Hc Hs]%lacks_cons. cbn.
  destruct (Ascii.eqb_spec c sep); [contradiction|]. now rewrite (IH Hs).
Qed.

Lemma Split_nonempty s sep : Split s sep ≠ [].
Proof.
  destruct s as [|c s]; cbn; [discriminate|].
  destruct (Ascii.eqb c sep); [discriminate|]. destruct (Split s sep); discriminate.
Qed.

Lemma Split_append sep a b :
  lacks sep a → Split (a +:+ String sep b) sep = a :: Split b sep.
Proof.
  induction a as [|c a IH].
  - intros _. rewrite append_empty_l. cbn. now rewrite Ascii.eqb_refl.
  - intros [Hc Ha]%lacks_cons. rewrite append_String. cbn.
    destruct (Ascii.eqb_spec c sep); [contradiction|]. now rewrite (IH Ha).
Qed.

End StringFacts.

(** ** Tokens and the scripted URL parser *)

Section TokenFacts.

Lemma host_lacks c h :
  Token.isHostByte c = false → Token.host h → lacks c h.
Proof. intros Hc. now apply forallb_lacks. Qed.

Lemma port_lacks c p :
  Token.isDigit c = false → Token.port p → lacks c p.
Proof. intros Hc. now apply forallb_lacks. Qed.

Lemma credential_lacks c u :
  Token.isUnreserved c = false → Token.credential u → lacks c u.
Proof. intros Hc. now apply forallb_lacks. Qed.

Lemma cut_lacks c s : lacks c s → Fake.cut c s = None.
Proof.
  induction s as [|x s IH]; [reflexivity|].
  intros [Hx Hs]%lacks_cons. cbn.
  destruct (Ascii.eqb_spec x c); [contradiction|]. now rewrite (IH Hs).
Qed.

Lemma cut_append c a b :
  lacks c a → Fake.cut c (a +:+ String c b) = Some (a, b).
Proof.
  induction a as [|x a IH].
  - intros _. rewrite append_empty_l. cbn. now rewrite Ascii.eqb_refl.
  - intros [Hx Ha]%lacks_cons. rewrite append_String. cbn.
    destruct (Ascii.eqb_spec x c); [contradiction|]. now rewrite (IH Ha).
Qed.

Lemma cutLast_lacks c s : lacks c s → Fake.cutLast c s = None.
Proof.
  induction s as [|x s IH]; [reflexivity|].
  intros [Hx Hs]%lacks_cons. cbn. rewrite (IH Hs).
  destruct (Ascii.eqb_spec x c); [contradiction|reflexivity].
Qed.

Lemma cutLast_append c a b :
  lacks c b → Fake.cutLast c (a +:+ String c b) = Some (a, b).
Proof.
  intros Hb. induction a as [|x a IH].
  - rewrite append_empty_l. cbn. rewrite (cutLast_lacks _ _ Hb). now rewrite Ascii.eqb_refl.
  - rewrite append_String. cbn. now rewrite IH.
Qed.

(** The scripted parser reads the authority the way the client needs. *)
Lemma parse_reads_authority : url_Parse_reads_authority Fake.parse.
Proof.
  split.
  - intros h p Hh Hp. unfold Fake.parse.
    rewrite !append_String, !append_empty_l. cbn [Fake.stripPrefix Ascii.eqb Bool.eqb].
    assert (Hhp : ∀ c, Token.isHostByte c = false → Token.isDigit c = false →
                       c ≠ ":"%char → lacks c (h +:+ String ":" p)).
    { intros c H1 H2 H3. apply lacks_append. split; [now apply host_lacks|].
      apply lacks_cons. split; [congruence|now apply port_lacks]. }
    rewrite (cut_lacks "/") by (now apply Hhp).
    rewrite (cutLast_lacks "@") by (now apply Hhp).
    unfold Fake.validOptionalPort.
    rewrite cutLast_append by (now apply port_lacks).
    unfold Token.port in Hp. rewrite Hp. reflexivity.
  - intros h p u w Hh Hp Hu Hw. unfold Fake.parse.
    rewrite !append_String, !append_empty_l. cbn [Fake.stripPrefix Ascii.eqb Bool.eqb].
    assert (Hhp : ∀ c, Token.isHostByte c = false → Token.isDigit c = false →
                       c ≠ ":"%char → lacks c (h +:+ String ":" p)).
    { intros c H1 H2 H3. apply lacks_append. split; [now apply host_lacks|].
      apply lacks_cons. split; [congruence|now apply port_lacks]. }
    assert (Huw : ∀ c, Token.isUnreserved c = false → c ≠ ":"%char →
                       lacks c (u +:+ String ":" w)).
    { intros c H1 H3. apply lacks_append. split; [now apply credential_lacks|].
      apply lacks_cons. split; [congruence|now apply credential_lacks]. }
    replace (u +:+ String ":" (w +:+ String "@" (h +:+ String ":" p)))
      with ((u +:+ String ":" w) +:+ String "@" (h +:+ String ":" p))
      by (now rewrite append_assoc, append_String).
    rewrite (cut_lacks "/").
    2:{ apply lacks_append. split; [now apply Huw|]. apply lacks_cons.
        split; [discriminate|now apply Hhp]. }
    rewrite (cutLast_append "@") by (now apply Hhp).
    rewrite cut_append by (now apply credential_lacks).
    unfold Fake.validOptionalPort.
    rewrite cutLast_append by (now apply port_lacks).
    unfold Token.port in Hp. rewrite Hp. reflexivity.
Qed.

End TokenFacts.

(** ** The probe and the line parser *)

Section ProbeFacts.

Variable E : Env.

Lemma http_NewRequest_get u body :
  http_NewRequest E MethodGet u body
  = match url_Parse E u with
    | inr e => inr e
    | inl _ => inl {| Method := MethodGet; RawURL := u; UserAgent := ""; ReqBody := body |}
    end.
Proof. reflexivity. Qed.

(** A GET whose URL parses is handed to [Do]; what [request] returns
    follows from the answer. *)
Lemma request_get cl u useragent U (s : State E) :
  url_Parse E u = inl U →
  let req := {| Method := MethodGet; RawURL := u; UserAgent := useragent; ReqBody := None |} in
  request E cl MethodGet u useragent None s
  = match Do E cl req (world s) with
    | (inr e, w) => Ret (None, Some e) (afterDo s cl req w)
    | (inl resp, w) =>
        if (StatusBadRequest <=? StatusCode resp)%Z
        then bind (formatError E resp) (fun e => ret (None, Some e)) (afterDo s cl req w)
        else Ret (Some resp, None) (afterDo s cl req w)
    end.
Proof.
  intros HU req. unfold request. rewrite http_NewRequest_get, HU.
  unfold bind, Client_Do, bind, emit, call, withWorld, Header_Set_UserAgent. cbn.
  fold req. destruct (Do E cl req (world s)) as [[resp|e] w]; [|reflexivity].
  destruct (StatusBadRequest <=? StatusCode resp)%Z; reflexivity.
Qed.

(** A GET whose URL does not parse is not sent. *)
Lemma request_bad_url cl u useragent e (s : State E) :
  url_Parse E u = inr e →
  request E cl MethodGet u useragent None s = Ret (None, Some e) s.
Proof. intros HU. unfold request. now rewrite http_NewRequest_get, HU. Qed.

Lemma probeAccepted_inv resp :
  probeAccepted E resp = true →
  StatusCode resp = 200%Z ∧ readErr (Body resp) = None
  ∧ IsValidIp E (TrimSpace (data (Body resp))) = true.
Proof.
  unfold probeAccepted. intros [[H1 H2]%andb_prop H3]%andb_prop.
  apply Z.eqb_eq in H1. destruct (readErr (Body resp)); [discriminate|]. auto.
Qed.

(** [proxyIp] sends one request through the proxy; it returns the trimmed
    body when the answer is accepted and an error otherwise.  Nothing but
    lines on [os.Stderr] follows the request. *)
Lemma proxyIp_spec (u : option URL) U (s : State E) :
  url_Parse E probeURL = inl U →
  let cl := proxiedClient u 60 in
  ∃ s' t,
    world s' = snd (Do E cl probeRequest (world s))
    ∧ proxies s' = proxies s
    ∧ trace s' = t ++ EvDo cl probeRequest :: trace s
    ∧ Forall isEvStderr t
    ∧ match fst (Do E cl probeRequest (world s)) with
      | inl resp =>
          if probeAccepted E resp
          then proxyIp E u s = Ret (TrimSpace (data (Body resp)), None) s' ∧ t = []
          else ∃ e, proxyIp E u s = Ret ("", Some e) s'
      | inr e => proxyIp E u s = Ret ("", Some e) s'
      end.
Proof.
  intros HU cl. unfold proxyIp. fold cl. unfold bind.
  rewrite retryRequest_is_request, (request_get _ _ _ _ _ HU). cbn zeta.
  change {| Method := MethodGet; RawURL := probeURL; UserAgent := probeUserAgent;
            ReqBody := None |} with probeRequest.
  destruct (Do E cl probeRequest (world s)) as [[resp|e] w]; cbn [fst snd].
  - destruct (Z.leb_spec StatusBadRequest (StatusCode resp)) as [Hge|Hlt].
    + assert (Hna : probeAccepted E resp = false).
      { unfold probeAccepted. replace (StatusCode resp =? 200)%Z with false; [reflexivity|].
        symmetry. apply Z.eqb_neq. unfold StatusBadRequest in Hge. lia. }
      rewrite Hna.
      pose proof (formatError_cases E resp (afterDo s cl probeRequest w)) as Hf.
      unfold bind.
      destruct (json_Decode E (Body resp)) as [d|e]; rewrite Hf; cbn.
      * exists (afterDo s cl probeRequest w), []. repeat split; eauto.
      * exists (logged (afterDo s cl probeRequest w) (Error_ e)), [EvStderr (Error_ e)].
        repeat split; eauto. repeat constructor.
    + exists (afterDo s cl probeRequest w), []. cbn.
      repeat split; [constructor|].
      unfold probeAccepted.
      destruct (readErr (Body resp)) as [e|]; cbn.
      { rewrite andb_false_r. cbn. eauto. }
      rewrite andb_true_r.
      destruct (StatusCode resp =? 200)%Z; cbn; [|eauto].
      destruct (IsValidIp E (TrimSpace (data (Body resp)))); cbn; eauto.
  - exists (afterDo s cl probeRequest w), []. repeat split. constructor.
Qed.

(** [proxyIp] never panics and leaves the map alone. *)
Lemma proxyIp_returns (u : option URL) (s : State E) :
  ∃ r s', proxyIp E u s = Ret r s' ∧ proxies s' = proxies s.
Proof.
  unfold proxyIp, bind. rewrite retryRequest_is_request.
  destruct (request_cases E (proxiedClient u 60) MethodGet probeURL probeUserAgent None s)
    as (s' & Hp & [[e H]|(r & H & _)]); rewrite H.
  - eauto.
  - cbn. destruct (readErr (Body r)); [eauto|].
    destruct (negb _); [eauto|]. destruct (negb _); eauto.
Qed.

(** The three ways [parseProxyLine] goes: no URL for the number of tokens,
    a URL [url.Parse] refuses, and a probe. *)
Lemma parseProxyLine_cases line (s : State E) :
  match lineURL (Split (TrimSpace line) ":") with
  | None =>
      parseProxyLine E line s
      = Ret ("", None, Some (errorString ("invalid proxy line " +:+ line))) s
  | Some lu =>
      match url_Parse E lu with
      | inr e =>
          parseProxyLine E line s
          = Ret ("", None,
                 Some (errorString (Error_ e +:+ " parsing line " +:+ line +:+ " URL " +:+ lu))) s
      | inl u =>
          match proxyIp E (Some u) s with
          | Ret (ip, None) s' => parseProxyLine E line s = Ret (ip, Some u, None) s'
          | Ret (_, Some e) s' =>
              parseProxyLine E line s
              = Ret ("", None,
                     Some (errorString (Error_ e +:+ " getting IP for line " +:+ line
                                        +:+ " URL " +:+ lu))) s'
          | Panic e s' => parseProxyLine E line s = Panic e s'
          end
      end
  end.
Proof.
  unfold parseProxyLine.
  destruct (lineURL _) as [lu|]; [|reflexivity].
  destruct (url_Parse E lu) as [u|e]; [|reflexivity].
  unfold bind. destruct (proxyIp E (Some u) s) as [[ip [e|]] s'|e s']; reflexivity.
Qed.

End ProbeFacts.

Lemma lineURL_None (s : list string) :
  length s ≠ 2 → length s ≠ 4 → lineURL s = None.
Proof.
  destruct s as [|s0 [|s1 [|s2 [|s3 [|s4 r]]]]]; cbn; intros H2 H4;
    try reflexivity; congruence.
Qed.

Lemma Split_two h p :
  lacks ":" h → lacks ":" p → Split (h +:+ ":" +:+ p) ":" = [h; p].
Proof.
  intros Hh Hp. rewrite append_String, append_empty_l.
  rewrite Split_append by assumption. now rewrite Split_lacks.
Qed.

Lemma Split_four h p u w :
  lacks ":" h → lacks ":" p → lacks ":" u → lacks ":" w →
  Split (h +:+ ":" +:+ p +:+ ":" +:+ u +:+ ":" +:+ w) ":" = [h; p; u; w].
Proof.
  intros Hh Hp Hu Hw. rewrite !append_String, !append_empty_l.
  rewrite !Split_append by assumption. now rewrite Split_lacks.
Qed.

(** C4, as amended.  [parseProxyLine] goes to the network itself.  A line
    without a URL (the wrong number of tokens, or a text [url.Parse]
    refuses) is answered from its text alone: the same error in every
    state, and the state is left as it was.  For any other line one request
    is handed to a client that goes through the candidate proxy, and the
    line parses if and only if the answer is accepted: the IP returned is
    the trimmed body of that answer. *)
Theorem parseProxyLine_probes_the_network (E : Env) (line : string) (s : State E) :
  (match lineURL (Split (TrimSpace line) ":") with
   | None => True
   | Some lu => ∃ e, url_Parse E lu = inr e
   end →
   ∃ e, ∀ s0 : State E, parseProxyLine E line s0 = Ret ("", None, Some e) s0)
  ∧ (∀ lu u U,
       lineURL (Split (TrimSpace line) ":") = Some lu →
       url_Parse E lu = inl u →
       url_Parse E probeURL = inl U →
       let cl := proxiedClient (Some u) 60 in
       let answer := fst (Do E cl probeRequest (world s)) in
       ∃ t, trace (final (parseProxyLine E line s)) = t ++ EvDo cl probeRequest :: trace s
            ∧ ∀ ip, returned (parseProxyLine E line s) = Some (ip, Some u, None)
                    ↔ ∃ resp, answer = inl resp ∧ probeAccepted E resp = true
                              ∧ ip = TrimSpace (data (Body resp))).
Proof.
  split.
  - intros H.
    destruct (lineURL (Split (TrimSpace line) ":")) as [lu|] eqn:Hlu.
    + destruct H as [e He]. eexists. intros s0.
      pose proof (parseProxyLine_cases E line s0) as Hc.
      rewrite Hlu, He in Hc. exact Hc.
    + eexists. intros s0.
      pose proof (parseProxyLine_cases E line s0) as Hc.
      rewrite Hlu in Hc. exact Hc.
  - intros lu u U Hlu Hu HU cl answer.
    pose proof (parseProxyLine_cases E line s) as Hc. rewrite Hlu, Hu in Hc.
    destruct (proxyIp_spec E (Some u) U s HU) as (s' & t & Hw & Hp & Ht & Hst & Hr).
    fold cl in Hw, Ht, Hr. fold answer in Hr.
    exists t. destruct answer as [resp|e].
    + destruct (probeAccepted E resp) eqn:Hacc.
      * destruct Hr as [Hr ->]. rewrite Hr in Hc. rewrite Hc. cbn. split; [exact Ht|].
        intros ip. split.
        -- intros [= <-]. eauto.
        -- intros (resp' & [= <-] & _ & ->). reflexivity.
      * destruct Hr as [e Hr]. rewrite Hr in Hc. rewrite Hc. cbn. split; [exact Ht|].
        intros ip. split; [discriminate|].
        intros (resp' & [= <-] & Hacc' & _). congruence.
    + rewrite Hr in Hc. rewrite Hc. cbn. split; [exact Ht|].
      intros ip. split; [discriminate|]. intros (resp' & [=] & _).
Qed.

(** C4, counterexample: the line [10.0.0.1:8080] parses on a network where
    the proxy answers the probe, and fails on one where nothing answers. *)
Lemma parseProxyLine_depends_on_the_network :
  returned (parseProxyLine (Fake.env Scenario.partialFailure) "10.0.0.1:8080"
              (Fake.fresh Scenario.partialFailure))
  = Some ("203.0.113.7", Some (httpURL None "10.0.0.1:8080"), None)
  ∧ returned (parseProxyLine (Fake.env Scenario.allDead) "10.0.0.1:8080"
                (Fake.fresh Scenario.allDead))
    = Some ("", None,
            Some (errorString
                    "connection refused getting IP for line 10.0.0.1:8080 URL http://10.0.0.1:8080"))
  ∧ Fake.calls (world (final (parseProxyLine (Fake.env Scenario.allDead) "10.0.0.1:8080"
                                (Fake.fresh Scenario.allDead)))) = 1.
Proof. vm_compute. auto. Qed.

(** C5, as amended.  Given that [url.Parse] reads back the authority of the
    URLs the client builds: a line of two tokens [host:port], or of four
    [host:port:user:password], is probed through the proxy
    [http://host:port], with the user and the password for four tokens; the
    parser returns that URL when the probe succeeds, and an error that
    names the line when it fails.  A line with any other number of tokens
    fails with [invalid proxy line] followed by the line. *)
Theorem parseProxyLine_tokens (E : Env) :
  url_Parse_reads_authority (url_Parse E) →
  (∀ line h p (s : State E),
     Token.host h → Token.port p → TrimSpace line = h +:+ ":" +:+ p →
     let u := httpURL None (h +:+ ":" +:+ p) in
     ∃ r s', proxyIp E (Some u) s = Ret r s'
             ∧ parseProxyLine E line s
               = Ret match r with
                     | (ip, None) => (ip, Some u, None)
                     | (_, Some e) =>
                         ("", None,
                          Some (errorString (Error_ e +:+ " getting IP for line " +:+ line
                                             +:+ " URL " +:+ "http://" +:+ h +:+ ":" +:+ p)))
                     end s')
  ∧ (∀ line h p user pass (s : State E),
       Token.host h → Token.port p → Token.credential user → Token.credential pass →
       TrimSpace line = h +:+ ":" +:+ p +:+ ":" +:+ user +:+ ":" +:+ pass →
       let u := httpURL (Some (UserPassword user pass)) (h +:+ ":" +:+ p) in
       ∃ r s', proxyIp E (Some u) s = Ret r s'
               ∧ parseProxyLine E line s
                 = Ret match r with
                       | (ip, None) => (ip, Some u, None)
                       | (_, Some e) =>
                           ("", None,
                            Some (errorString (Error_ e +:+ " getting IP for line " +:+ line
                                               +:+ " URL " +:+ "http://" +:+ user +:+ ":"
                                               +:+ pass +:+ "@" +:+ h +:+ ":" +:+ p)))
                       end s')
  ∧ (∀ line (s : State E),
       length (Split (TrimSpace line) ":") ≠ 2 →
       length (Split (TrimSpace line) ":") ≠ 4 →
       parseProxyLine E line s
       = Ret ("", None, Some (errorString ("invalid proxy line " +:+ line))) s).
Proof.
  intros [H2 H4].
  assert (Hh : Token.isHostByte ":" = false) by reflexivity.
  assert (Hd : Token.isDigit ":" = false) by reflexivity.
  assert (Hu : Token.isUnreserved ":" = false) by reflexivity.
  split; [|split].
  - intros line h p s Hhost Hport Hline u.
    pose proof (parseProxyLine_cases E line s) as Hc.
    rewrite Hline in Hc.
    rewrite (Split_two h p) in Hc by (first [now apply host_lacks|now apply port_lacks]).
    cbn [lineURL] in Hc. rewrite (H2 h p Hhost Hport) in Hc. fold u in Hc.
    destruct (proxyIp_returns E (Some u) s) as (r & s' & Hr & _).
    exists r, s'. split; [exact Hr|]. rewrite Hr in Hc.
    destruct r as [ip [e|]]; exact Hc.
  - intros line h p user pass s Hhost Hport Huser Hpass Hline u.
    pose proof (parseProxyLine_cases E line s) as Hc.
    rewrite Hline in Hc.
    rewrite (Split_four h p user pass) in Hc
      by (first [now apply host_lacks|now apply port_lacks|now apply credential_lacks]).
    cbn [lineURL] in Hc. rewrite (H4 h p user pass Hhost Hport Huser Hpass) in Hc. fold u in Hc.
    destruct (proxyIp_returns E (Some u) s) as (r & s' & Hr & _).
    exists r, s'. split; [exact Hr|]. rewrite Hr in Hc.
    destruct r as [ip [e|]]; exact Hc.
  - intros line s Hn2 Hn4.
    pose proof (parseProxyLine_cases E line s) as Hc.
    now rewrite (lineURL_None _ Hn2 Hn4) in Hc.
Qed.

(** C5, counterexample: the line [10.0.0.3:3128] is well formed, and the
    parser returns no URL for it: the probe through it times out. *)
Lemma parseProxyLine_well_formed_line_fails :
  Token.host "10.0.0.3" ∧ Token.port "3128"
  ∧ returned (parseProxyLine (Fake.env Scenario.partialFailure) "10.0.0.3:3128"
                (Fake.fresh Scenario.partialFailure))
    = Some ("", None,
            Some (errorString
                    "context deadline exceeded getting IP for line 10.0.0.3:3128 URL http://10.0.0.3:3128")).
Proof. vm_compute. auto. Qed.

(** C5, witness: the line with four tokens of the scenario, padded with
    blanks. *)
Lemma parseProxyLine_tokens_witness :
  let E := Fake.env Scenario.partialFailure in
  let line := "  10.0.0.2:8080:bob:secret " in
  let u := httpURL (Some (UserPassword "bob" "secret")) ("10.0.0.2" +:+ ":" +:+ "8080") in
  ∃ r s', proxyIp E (Some u) (Fake.fresh Scenario.partialFailure) = Ret r s'
          ∧ parseProxyLine E line (Fake.fresh Scenario.partialFailure)
            = Ret match r with
                  | (ip, None) => (ip, Some u, None)
                  | (_, Some e) =>
                      ("", None,
                       Some (errorString (Error_ e +:+ " getting IP for line " +:+ line
                                          +:+ " URL " +:+ "http://" +:+ "bob" +:+ ":"
                                          +:+ "secret" +:+ "@" +:+ "10.0.0.2" +:+ ":" +:+ "8080")))
                  end s'.
Proof.
  intros E line u.
  destruct (parseProxyLine_tokens E parse_reads_authority) as (_ & H4 & _).
  apply (H4 line "10.0.0.2" "8080" "bob" "secret" (Fake.fresh Scenario.partialFailure));
    vm_compute; reflexivity.
Defined.

(** The same line, evaluated. *)
Example parseProxyLine_four_tokens :
  returned (parseProxyLine (Fake.env Scenario.partialFailure) "  10.0.0.2:8080:bob:secret "
              (Fake.fresh Scenario.partialFailure))
  = Some ("203.0.113.8",
          Some (httpURL (Some (UserPassword "bob" "secret")) "10.0.0.2:8080"), None).
Proof. vm_compute. reflexivity. Qed.

(** ** The worker *)

Section WorkerFacts.

Variable E : Env.

Lemma new_events_app (t r : list event) : new_events (length t) (t ++ r) = t.
Proof. induction t as [|e t IH]; cbn; [now destruct r|now f_equal]. Qed.

Lemma events_since_app (s s' : State E) t :
  trace s' = t ++ trace s → events_since s s' = t.
Proof.
  intros H. unfold events_since. rewrite H, length_app.
  replace (length t + length (trace s) - length (trace s)) with (length t) by lia.
  apply new_events_app.
Qed.

(** [parseProxyLine] never panics, leaves the map alone, and returns a URL
    whenever it returns no error. *)
Lemma parseProxyLine_returns line (s : State E) :
  ∃ res s1, parseProxyLine E line s = Ret res s1 ∧ proxies s1 = proxies s
            ∧ ∀ ip u, res = (ip, u, None) → is_Some u.
Proof.
  pose proof (parseProxyLine_cases E line s) as Hc.
  destruct (lineURL _) as [lu|];
    [|do 2 eexists; split; [exact Hc|split; [reflexivity|discriminate]]].
  destruct (url_Parse E lu) as [u|e];
    [|do 2 eexists; split; [exact Hc|split; [reflexivity|discriminate]]].
  destruct (proxyIp_returns E (Some u) s) as ([ip [e|]] & s' & Hr & Hp); rewrite Hr in Hc.
  - do 2 eexists. split; [exact Hc|split; [exact Hp|discriminate]].
  - do 2 eexists. split; [exact Hc|split; [exact Hp|]]. intros ip' u' [= _ <-]. eauto.
Qed.

(** The worker never panics: it stores the result of a line that parsed,
    under the mutex, and writes the error of any other line to
    [os.Stderr]. *)
Lemma worker_spec line (s : State E) :
  ∃ res s1, parseProxyLine E line s = Ret res s1 ∧ proxies s1 = proxies s
    ∧ worker E line s
      = Ret tt match res with
               | (ip, u, None) => stored s1 ip u
               | (_, _, Some e) => logged s1 (Error_ e +:+ String lf "")
               end
    ∧ ∀ ip u, res = (ip, u, None) → is_Some u.
Proof.
  destruct (parseProxyLine_returns line s) as (res & s1 & Hr & Hp & Hu).
  exists res, s1. split; [exact Hr|split; [exact Hp|split; [|exact Hu]]].
  unfold worker, bind. rewrite Hr. destruct res as [[ip u] [e|]]; reflexivity.
Qed.

End WorkerFacts.

(** C7.  For a line that gives a candidate proxy [u] (its tokens give a URL
    and [url.Parse] accepts it), the worker stores [u] in the map if and
    only if the answer to the probe through [u] is accepted: status 200 and
    a body that reads to its end and, trimmed, is an IP address.  Then the
    map gains [u] under that address, between [Lock] and [Unlock].  On any
    other outcome of the probe the worker returns all the same, the map is
    as it was and the last event is a line on [os.Stderr]. *)
Theorem worker_stores_iff_probe_accepted (E : Env) (line lu : string) (u U : URL)
    (s : State E) :
  lineURL (Split (TrimSpace line) ":") = Some lu →
  url_Parse E lu = inl u →
  url_Parse E probeURL = inl U →
  let cl := proxiedClient (Some u) 60 in
  let answer := fst (Do E cl probeRequest (world s)) in
  let w := snd (Do E cl probeRequest (world s)) in
  ∃ s', worker E line s = Ret tt s'
    ∧ ((∃ ip v, In (EvStore ip v) (events_since s s'))
       ↔ ∃ resp, answer = inl resp ∧ probeAccepted E resp = true)
    ∧ (∀ resp, answer = inl resp → probeAccepted E resp = true →
         s' = stored (afterDo s cl probeRequest w) (TrimSpace (data (Body resp))) (Some u))
    ∧ ((¬ ∃ resp, answer = inl resp ∧ probeAccepted E resp = true) →
         proxies s' = proxies s ∧ ∃ msg t, trace s' = EvStderr msg :: t).
Proof.
  intros Hlu Hu HU cl answer w.
  pose proof (parseProxyLine_cases E line s) as Hc. rewrite Hlu, Hu in Hc.
  destruct (proxyIp_spec E (Some u) U s HU) as (s1 & t & Hw & Hp & Ht & Hst & Hr).
  fold cl in Hw, Ht, Hr. fold answer in Hr. fold w in Hw.
  assert (Hrej : ∀ e0, proxyIp E (Some u) s = Ret ("", Some e0) s1 →
            ∃ s', worker E line s = Ret tt s'
                  ∧ (∀ ip v, ¬ In (EvStore ip v) (events_since s s'))
                  ∧ proxies s' = proxies s ∧ ∃ msg t', trace s' = EvStderr msg :: t').
  { intros e0 He0. rewrite He0 in Hc. unfold worker, bind. rewrite Hc.
    exists (logged s1 ((Error_ e0 +:+ " getting IP for line " +:+ line +:+ " URL " +:+ lu)
                       +:+ String lf "")).
    split; [reflexivity|]. split; [|split; [exact Hp|cbn; eauto]].
    intros ip v.
    rewrite (events_since_app E _ _ (EvStderr
               ((Error_ e0 +:+ " getting IP for line " +:+ line +:+ " URL " +:+ lu)
                +:+ String lf "") :: t ++ [EvDo cl probeRequest]))
      by (cbn; rewrite Ht, <- app_assoc; reflexivity).
    cbn. intros [Hin|Hin]; [discriminate|].
    apply in_app_or in Hin as [Hin|[Hin|[]]]; [|discriminate].
    rewrite List.Forall_forall in Hst. now apply Hst in Hin. }
  destruct answer as [resp|e] eqn:Hans.
  - destruct (probeAccepted E resp) eqn:Hacc.
    + destruct Hr as [Hr ->]. rewrite Hr in Hc. unfold worker, bind. rewrite Hc.
      assert (Hs1 : s1 = afterDo s cl probeRequest w).
      { destruct s1 as [w1 p1 t1]. cbn in *. unfold afterDo. now subst. }
      subst s1.
      exists (stored (afterDo s cl probeRequest w) (TrimSpace (data (Body resp))) (Some u)).
      split; [reflexivity|]. split; [|split].
      * split; [eauto|]. intros _. exists (TrimSpace (data (Body resp))), (Some u).
        rewrite (events_since_app E _ _
                   [EvUnlock; EvStore (TrimSpace (data (Body resp))) (Some u); EvLock;
                    EvDo cl probeRequest]) by reflexivity.
        cbn. auto.
      * intros resp' [= <-] _. reflexivity.
      * intros Hno. exfalso. apply Hno. eauto.
    + destruct Hr as [e0 Hr]. destruct (Hrej e0 Hr) as (s' & Hwk & Hnone & Hpx & Hlog).
      exists s'. split; [exact Hwk|]. split; [|split].
      * split; [intros (ip & v & Hin); now apply Hnone in Hin|].
        intros (resp' & [= <-] & Hacc'). congruence.
      * intros resp' [= <-] Hacc'. congruence.
      * intros _. split; assumption.
  - destruct (Hrej e Hr) as (s' & Hwk & Hnone & Hpx & Hlog).
    exists s'. split; [exact Hwk|]. split; [|split].
    + split; [intros (ip & v & Hin); now apply Hnone in Hin|].
      intros (resp' & [=] & _).
    + intros resp' [=].
    + intros _. split; assumption.
Qed.

(** C7, witness: the first line of the scenario, whose probe is answered
    with an address, and its last line, whose probe times out. *)
Lemma worker_stores_iff_probe_accepted_witness :
  worker (Fake.env Scenario.partialFailure) "10.0.0.1:8080" (Fake.fresh Scenario.partialFailure)
  = Ret tt (stored (afterDo (Fake.fresh Scenario.partialFailure)
                      (proxiedClient (Some (httpURL None "10.0.0.1:8080")) 60) probeRequest
                      {| Fake.calls := 1; Fake.disk := ∅ |})
              "203.0.113.7" (Some (httpURL None "10.0.0.1:8080")))
  ∧ proxies (final (worker (Fake.env Scenario.partialFailure) "10.0.0.3:3128"
                      (Fake.fresh Scenario.partialFailure))) = ∅.
Proof.
  split.
  - destruct (worker_stores_iff_probe_accepted (Fake.env Scenario.partialFailure)
                "10.0.0.1:8080" "http://10.0.0.1:8080" (httpURL None "10.0.0.1:8080")
                {| Scheme := "http"; Opaque := ""; User := None;
                   Host := "ifconfig.io"; Path := "/ip"; RawPath := "";
                   ForceQuery := false; RawQuery := ""; Fragment := "" |}
                (Fake.fresh Scenario.partialFailure) eq_refl eq_refl eq_refl)
      as (s' & Hw & _ & Hs & _).
    rewrite Hw. f_equal. apply (Hs (Fake.response 200 ("203.0.113.7" +:+ Scenario.nl))); reflexivity.
  - destruct (worker_stores_iff_probe_accepted (Fake.env Scenario.partialFailure)
                "10.0.0.3:3128" "http://10.0.0.3:3128" (httpURL None "10.0.0.3:3128")
                {| Scheme := "http"; Opaque := ""; User := None;
                   Host := "ifconfig.io"; Path := "/ip"; RawPath := "";
                   ForceQuery := false; RawQuery := ""; Fragment := "" |}
                (Fake.fresh Scenario.partialFailure) eq_refl eq_refl eq_refl)
      as (s' & Hw & _ & _ & Hn).
    rewrite Hw. cbn [final]. apply Hn. intros (resp & Hr & _). discriminate Hr.
Defined.

(** ** The loop over the lines and the cache *)

Section ListFacts.

Variable E : Env.

Lemma inserted_cons p ps (m : gmap string (option URL)) :
  inserted (p :: ps) m = inserted ps (<[p.1 := p.2]> m).
Proof. reflexivity. Qed.

(** Distinct addresses give as many entries as there are pairs. *)
Lemma size_inserted ps (m : gmap string (option URL)) :
  NoDup ps.*1 → (∀ p, p ∈ ps → m !! p.1 = None) →
  size (inserted ps m) = length ps + size m.
Proof.
  revert m. induction ps as [|p ps IH]; intros m Hnd Hfresh; [reflexivity|].
  rewrite inserted_cons. cbn in Hnd. apply NoDup_cons in Hnd as [Hp Hnd].
  rewrite IH.
  - rewrite map_size_insert_None by (apply Hfresh; left). cbn. lia.
  - exact Hnd.
  - intros q Hq. rewrite lookup_insert_ne.
    + apply Hfresh. now right.
    + intros Heq. apply Hp. rewrite Heq. apply list_elem_of_fmap. eauto.
Qed.

(** The loop of [List] never panics: it leaves in the map what the lines
    that parsed gave, in the order of the lines. *)
Lemma scanLoop_spec wg lines (s : State E) :
  ∃ s', scanLoop E wg lines s = Ret tt s'
        ∧ proxies s' = inserted (successes (lineResults E lines s)) (proxies s)
        ∧ (allURLs (proxies s) → allURLs (proxies s')).
Proof.
  revert s. induction lines as [|l lines IH]; intros s.
  - exists s. split; [reflexivity|]. split; [reflexivity|auto].
  - unfold scanLoop in *. cbn [forEach lineResults].
    destruct (String.eqb l "") eqn:Hl.
    + destruct (IH s) as (s' & Hrun & Hp & Hall). exists s'.
      split; [|split; assumption]. unfold bind. cbn. exact Hrun.
    + destruct (worker_spec E l (after s (EvRun l))) as (res & s1 & Hres & Hp1 & Hwk & Hurl).
      rewrite Hres, Hwk. cbn [final].
      set (s2 := match res with
                 | (ip, u, None) => stored s1 ip u
                 | (_, _, Some e) => logged s1 (Error_ e +:+ String lf "")
                 end) in *.
      destruct (IH s2) as (s' & Hrun & Hp & Hall). exists s'. split; [|split].
      * unfold bind, WgExec_Run, bind, emit. cbn.
        change {| world := world s; proxies := proxies s; trace := EvRun l :: trace s |}
          with (after s (EvRun l)).
        rewrite Hwk. exact Hrun.
      * rewrite Hp. subst s2. destruct res as [[ip u] [e|]]; cbn.
        -- now rewrite Hp1.
        -- now rewrite Hp1.
      * intros Hs. apply Hall. subst s2. destruct res as [[ip u] [e|]]; cbn.
        -- now rewrite Hp1.
        -- rewrite Hp1. apply map_Forall_insert_2; [|exact Hs]. now apply (Hurl ip u).
Qed.

(** [url.String()] is called on pointers that are not nil. *)
Lemma stringsOf_returns ps l (s : State E) :
  Forall (fun p : string * option URL => is_Some p.2) ps →
  ∃ l', stringsOf E ps l s = Ret l' s.
Proof.
  revert l. induction ps as [|[ip u] ps IH]; intros l Hall.
  - eexists. reflexivity.
  - apply Forall_cons in Hall as [Hu Hall]. cbn in Hu. destruct Hu as [u' ->].
    cbn. apply IH, Hall.
Qed.

Lemma putListCache_returns k (s : State E) :
  allURLs (proxies s) →
  ∃ l, putListCache E k s
       = Ret (cache_Put E k l (world s)).1 (withWorld s (cache_Put E k l (world s)).2).
Proof.
  intros Hall. unfold putListCache, bind, readProxies.
  destruct (stringsOf_returns (map_to_list (proxies s)) ∅ s) as [l Hl].
  { apply map_Forall_to_list in Hall. eapply Forall_impl; [exact Hall|].
    intros [ip u]; cbn; auto. }
  exists l. rewrite Hl. unfold call. now destruct (cache_Put E k l (world s)).
Qed.

(** [getListCache] on a hard error of the cache, and on a cache that gives
    no entry. *)
Lemma getListCache_hard k l e w (s : State E) :
  cache_Get E k (world s) = ((l, e), w) → isHard e = true →
  getListCache E k s = Ret e (withWorld s w).
Proof.
  intros Hget Hhard. unfold getListCache, bind, call. now rewrite Hget, Hhard.
Qed.

Lemma getListCache_empty k e w (s : State E) :
  cache_Get E k (world s) = ((∅, e), w) → isHard e = false →
  getListCache E k s = Ret None (withWorld s w).
Proof.
  intros Hget Hhard. unfold getListCache, bind, call. now rewrite Hget, Hhard.
Qed.

(** [List] after a cache that gave no entry to a client that has none. *)
Lemma List_after_miss c e w (s : State E) :
  cache_Get E ("list_" +:+ listUrl c) (world s) = ((∅, e), w) → isHard e = false →
  proxies s = ∅ →
  List E c s = List_fetch E c ("list_" +:+ listUrl c) (after (withWorld s w) EvLen).
Proof.
  intros Hget Hhard Hempty. unfold List, bind.
  rewrite (getListCache_empty _ _ _ _ Hget Hhard). cbn [isHard].
  assert (Hsz : size (proxies s) = 0) by (rewrite Hempty; apply map_size_empty).
  unfold lenProxies. cbn. rewrite Hsz. reflexivity.
Qed.

(** [get] leaves the map alone. *)
Lemma get_proxies c u r (s s2 : State E) :
  get E c u s = Ret r s2 → proxies s2 = proxies s.
Proof.
  unfold get. rewrite retryRequest_is_request. intros H.
  destruct (request_cases E (Client c) MethodGet u (userAgent E) None s)
    as (s' & Hp & [[e H']|(r' & H' & _)]); rewrite H' in H; now injection H as <- <-.
Qed.

(** [List_fetch] once the list has been read: the limits, the loop, the
    cache. *)
Lemma List_fetch_after_get c k r (s s2 : State E) :
  get E c (listUrl c) s = Ret (Some r, None) s2 →
  readErr (Body r) = None →
  List_fetch E c k s
  = match LiftRLimits E (world s2) with
    | (Some e, w3) => Panic e (withWorld s2 w3)
    | (None, w3) =>
        bind (scanLoop E (NewWgExec 50) (scanLines (data (Body r))))
             (fun _ => bind (WgExec_Wait E (NewWgExec 50))
                         (fun _ => bind (putListCache E k)
                                     (fun e => match e with
                                               | Some e' => ret (nilMap, Some e')
                                               | None => ret (c_proxies, None)
                                               end)))
             (withWorld s2 w3)
    end.
Proof.
  intros Hget Hread. unfold List_fetch. unfold bind at 1. rewrite Hget.
  unfold ioutil_ReadAll. rewrite Hread. unfold bind at 1. unfold call.
  destruct (LiftRLimits E (world s2)) as [[e|] w3]; reflexivity.
Qed.

End ListFacts.

(** ** [List]: lines that fail, and limits that cannot be raised *)

(** C6.  On a client without entries whose cache gives none, once the list
    has been fetched and read, the limits raised, and with a cache that
    takes the write: [List] returns the client's map and no error, whatever
    the lines and the probes do.  The map holds what the lines that parsed
    gave and nothing else; when their addresses are distinct it has one
    entry for each. *)
Theorem List_drops_failed_lines (E : Env) (c : client) (s s2 : State E)
    (e0 : option error) (w1 w3 : World E) (r : Response) :
  let k := "list_" +:+ listUrl c in
  proxies s = ∅ →
  cache_Get E k (world s) = ((∅, e0), w1) →
  isHard e0 = false →
  get E c (listUrl c) (after (withWorld s w1) EvLen) = Ret (Some r, None) s2 →
  readErr (Body r) = None →
  LiftRLimits E (world s2) = (None, w3) →
  (∀ k l w, (cache_Put E k l w).1 = None) →
  let rs := lineResults E (scanLines (data (Body r))) (withWorld s2 w3) in
  ∃ s', List E c s = Ret (c_proxies, None) s'
        ∧ deref s' c_proxies = inserted (successes rs) ∅
        ∧ (NoDup (successes rs).*1 → size (deref s' c_proxies) = length (successes rs)).
Proof.
  intros k Hempty Hget Hhard Hfetch Hread Hlim Hput rs.
  rewrite (List_after_miss E c e0 w1 s Hget Hhard Hempty).
  rewrite (List_fetch_after_get E c _ r _ s2 Hfetch Hread), Hlim.
  assert (Hp2 : proxies (withWorld s2 w3) = ∅).
  { cbn. rewrite (get_proxies E _ _ _ _ _ Hfetch). exact Hempty. }
  destruct (scanLoop_spec E (NewWgExec 50) (scanLines (data (Body r))) (withWorld s2 w3))
    as (s4 & Hloop & Hp4 & Hall).
  fold rs in Hp4. rewrite Hp2 in Hp4, Hall.
  specialize (Hall (map_Forall_empty _)).
  rewrite (bind_Ret _ _ _ _ _ Hloop).
  rewrite (bind_Ret _ _ s4 tt (after s4 EvWait) eq_refl).
  destruct (putListCache_returns E k (after s4 EvWait)) as [l Hl]; [exact Hall|].
  rewrite (bind_Ret _ _ _ _ _ Hl), Hput.
  eexists. split; [reflexivity|]. cbn. split; [exact Hp4|].
  intros Hnd. rewrite Hp4, size_inserted; [rewrite map_size_empty; lia|exact Hnd|].
  intros p _. apply lookup_empty.
Qed.

(** C6, witness: the list of five lines, two malformed, one whose probe
    times out, two whose probes answer with distinct addresses. *)
Lemma List_drops_failed_lines_witness :
  let E := Fake.env Scenario.partialFailure in
  let s := Fake.fresh Scenario.partialFailure : State E in
  let s1 := after (withWorld s {| Fake.calls := 0; Fake.disk := ∅ |}) EvLen in
  let s2 := final (get E Scenario.c0 Scenario.listURL s1) in
  let rs := lineResults E (scanLines Scenario.fiveLines)
              (withWorld s2 {| Fake.calls := 1; Fake.disk := ∅ |}) in
  ∃ s', List E Scenario.c0 s = Ret (c_proxies, None) s'
        ∧ deref s' c_proxies = inserted (successes rs) ∅
        ∧ (NoDup (successes rs).*1 → size (deref s' c_proxies) = length (successes rs)).
Proof.
  intros E s s1 s2 rs.
  apply (List_drops_failed_lines E Scenario.c0 s s2 (Some cachita_ErrNotFound)
           {| Fake.calls := 0; Fake.disk := ∅ |} {| Fake.calls := 1; Fake.disk := ∅ |}
           (Fake.response 200 Scenario.fiveLines));
    try (apply Ret_final); vm_compute; reflexivity.
Defined.

(** The same scenario, evaluated: two entries and no error. *)
Example List_five_lines :
  let run := List (Fake.env Scenario.partialFailure) Scenario.c0
               (Fake.fresh Scenario.partialFailure) in
  returned run = Some (c_proxies, None)
  ∧ proxies (final run)
    = {[ "203.0.113.7" := Some (httpURL None "10.0.0.1:8080");
         "203.0.113.8" := Some (httpURL (Some (UserPassword "bob" "secret")) "10.0.0.2:8080") ]}
  ∧ size (proxies (final run)) = 2.
Proof. intros run. repeat split; vm_compute; reflexivity. Qed.

(** C3, as amended.  When the limits cannot be raised, [List] does not
    return: [h.PanicOnError] panics with the failure, before any line is
    looked at, and the map is as it was. *)
Theorem List_panics_when_limits_are_refused (E : Env) (c : client) (s s2 : State E)
    (e0 : option error) (w1 w3 : World E) (r : Response) (e : error) :
  let k := "list_" +:+ listUrl c in
  proxies s = ∅ →
  cache_Get E k (world s) = ((∅, e0), w1) →
  isHard e0 = false →
  get E c (listUrl c) (after (withWorld s w1) EvLen) = Ret (Some r, None) s2 →
  readErr (Body r) = None →
  LiftRLimits E (world s2) = (Some e, w3) →
  List E c s = Panic e (withWorld s2 w3) ∧ proxies s2 = proxies s.
Proof.
  intros k Hempty Hget Hhard Hfetch Hread Hlim.
  rewrite (List_after_miss E c e0 w1 s Hget Hhard Hempty).
  rewrite (List_fetch_after_get E c _ r _ s2 Hfetch Hread), Hlim.
  split; [reflexivity|]. now rewrite (get_proxies E _ _ _ _ _ Hfetch).
Qed.

(** C3, counterexample: on a process that may not raise its limits, [List]
    returns nothing to its caller, no error either: it panics. *)
Lemma List_limits_refused_is_no_error :
  let run := List (Fake.env Scenario.limitsRefused) Scenario.c0
               (Fake.fresh Scenario.limitsRefused) in
  returned run = None
  ∧ panicked run = Some (errorString "operation not permitted")
  ∧ proxies (final run) = ∅.
Proof. intros run. repeat split; vm_compute; reflexivity. Qed.

(** C3, witness: the same scenario. *)
Lemma List_panics_when_limits_are_refused_witness :
  let E := Fake.env Scenario.limitsRefused in
  let s := Fake.fresh Scenario.limitsRefused : State E in
  let s1 := after (withWorld s {| Fake.calls := 0; Fake.disk := ∅ |}) EvLen in
  let s2 := final (get E Scenario.c0 Scenario.listURL s1) in
  List E Scenario.c0 s
  = Panic (errorString "operation not permitted")
          (withWorld s2 {| Fake.calls := 1; Fake.disk := ∅ |})
  ∧ proxies s2 = proxies s.
Proof.
  intros E s s1 s2.
  apply (List_panics_when_limits_are_refused E Scenario.c0 s s2 (Some cachita_ErrNotFound)
           {| Fake.calls := 0; Fake.disk := ∅ |} {| Fake.calls := 1; Fake.disk := ∅ |}
           (Fake.response 200 Scenario.fiveLines) (errorString "operation not permitted"));
    try (apply Ret_final); vm_compute; reflexivity.
Defined.

(** ** Events only accumulate *)

Section Growth.

Variable E : Env.

Lemma final_bind {A B} (m : M (State E) A) (k : A → M (State E) B) s :
  final (bind m k s)
  = match m s with
    | Ret a s1 => final (k a s1)
    | Panic _ s1 => s1
    end.
Proof. unfold bind. now destruct (m s). Qed.

Lemma grows_ret {A} (a : A) : grows (ret a : M (State E) A).
Proof. intros s. now exists []. Qed.

Lemma grows_panic {A} e : grows (panic e : M (State E) A).
Proof. intros s. now exists []. Qed.

Lemma grows_bind {A B} (m : M (State E) A) (k : A → M (State E) B) :
  grows m → (∀ a, grows (k a)) → grows (bind m k).
Proof.
  intros Hm Hk s. rewrite final_bind. destruct (Hm s) as [t Ht].
  destruct (m s) as [a s1|e s1]; cbn in Ht; [|eauto].
  destruct (Hk a s1) as [t' Ht']. exists (t' ++ t). now rewrite Ht', Ht, app_assoc.
Qed.

Lemma grows_emit e : grows (emit E e).
Proof. intros s. now exists [e]. Qed.

Lemma grows_call {A} (f : World E → A * World E) : grows (call E f).
Proof. intros s. unfold call. destruct (f (world s)). now exists []. Qed.

Lemma grows_lenProxies : grows (lenProxies E).
Proof. intros s. now exists [EvLen]. Qed.

Lemma grows_storeProxy ip u : grows (storeProxy E ip u).
Proof. intros s. now exists [EvStore ip u]. Qed.

Lemma grows_readProxies : grows (readProxies E).
Proof. intros s. now exists []. Qed.

Lemma grows_forEach {A} (f : A → M (State E) unit) l :
  (∀ x, grows (f x)) → grows (forEach f l).
Proof.
  intros Hf. induction l as [|x l IH]; cbn; [apply grows_ret|].
  apply grows_bind; auto.
Qed.

End Growth.

Create HintDb grows.

#[local] Hint Resolve grows_ret grows_panic grows_emit grows_call grows_lenProxies
  grows_storeProxy grows_readProxies : grows.

Ltac grows_step :=
  match goal with
  | |- grows (bind _ _) => apply grows_bind; [|intros ?]
  | |- grows (match ?x with _ => _ end) => destruct x
  | |- grows (forEach _ _) => apply grows_forEach; intros ?
  end.

Ltac grows_auto := repeat first [solve [eauto with grows] | grows_step].

Section GrowthOfThePackage.

Variable E : Env.

Lemma grows_formatError r : grows (formatError E r).
Proof. unfold formatError, Fprintf_Stderr. grows_auto. Qed.

Lemma grows_request cl method u useragent body :
  grows (request E cl method u useragent body).
Proof.
  pose proof grows_formatError. unfold request, Client_Do. grows_auto.
Qed.

Lemma grows_retryRequest cl method u useragent body :
  grows (retryRequest E cl method u useragent body).
Proof.
  intros s. rewrite retryRequest_is_request. apply grows_request.
Qed.

Lemma grows_proxyIp u : grows (proxyIp E u).
Proof. pose proof grows_retryRequest. unfold proxyIp. grows_auto. Qed.

Lemma grows_parseProxyLine line : grows (parseProxyLine E line).
Proof. pose proof grows_proxyIp. unfold parseProxyLine. grows_auto. Qed.

Lemma grows_worker line : grows (worker E line).
Proof.
  pose proof grows_parseProxyLine. unfold worker, Fprintf_Stderr, Lock, Unlock. grows_auto.
Qed.

Lemma grows_scanLoop wg lines : grows (scanLoop E wg lines).
Proof. pose proof grows_worker. unfold scanLoop, WgExec_Run. grows_auto. Qed.

Lemma grows_getListCache k : grows (getListCache E k).
Proof. unfold getListCache. grows_auto. Qed.

Lemma grows_stringsOf ps l : grows (stringsOf E ps l).
Proof.
  revert l. induction ps as [|[ip [u|]] ps IH]; intros l; cbn; auto with grows.
Qed.

Lemma grows_putListCache k : grows (putListCache E k).
Proof. pose proof grows_stringsOf. unfold putListCache. grows_auto. Qed.

Lemma grows_List_fetch c k : grows (List_fetch E c k).
Proof.
  pose proof grows_retryRequest. pose proof grows_scanLoop. pose proof grows_putListCache.
  unfold List_fetch, get, PanicOnError, WgExec_Wait. grows_auto.
Qed.

Lemma grows_List c : grows (List E c).
Proof.
  pose proof grows_getListCache. pose proof grows_List_fetch. unfold List. grows_auto.
Qed.

(** A request that returned a response was handed to [Do], and nothing
    followed. *)
Lemma request_success_trace cl method u useragent body r (s s2 : State E) :
  request E cl method u useragent body s = Ret (Some r, None) s2 →
  ∃ req, trace s2 = EvDo cl req :: trace s.
Proof.
  unfold request. destruct (http_NewRequest E method u body) as [req|e]; [|discriminate].
  unfold bind, Client_Do, bind, emit, call, withWorld; cbn.
  destruct (Do E cl _ _) as [[resp|e] w]; cbn; [|discriminate].
  destruct (StatusBadRequest <=? StatusCode resp)%Z.
  - destruct (formatError_returns E resp
                {| world := w; proxies := proxies s;
                   trace := EvDo cl (Header_Set_UserAgent req useragent) :: trace s |})
      as (msg & s' & Hf & _). rewrite Hf. discriminate.
  - intros [= _ <-]. eauto.
Qed.

End GrowthOfThePackage.

(** ** What [List] returns, and [Total] *)

Section Answers.

Variable E : Env.

Lemma answers_bind {A} (m : M (State E) A) (k : A → M (State E) (mapref * option error)) :
  (∀ a, answers (k a)) → answers (bind m k).
Proof.
  intros Hk s r e s' H. apply bind_inv_Ret in H as (a & s1 & _ & H). eapply Hk, H.
Qed.

Lemma answers_error e : answers (ret (nilMap, Some e) : M (State E) _).
Proof. intros s r e' s' [= <- <- _]. left. split; [reflexivity|discriminate]. Qed.

Lemma answers_map : answers (ret (c_proxies, None) : M (State E) _).
Proof. intros s r e' s' [= <- <- _]. now right. Qed.

Lemma answers_panic e : answers (panic e : M (State E) _).
Proof. intros s r e' s' [=]. Qed.

Lemma answers_List_fetch c k : answers (List_fetch E c k).
Proof.
  unfold List_fetch.
  repeat first [ apply answers_error | apply answers_map | apply answers_panic
               | apply answers_bind; intros ?
               | match goal with |- answers (match ?x with _ => _ end) => destruct x end ].
Qed.

Lemma answers_List c : answers (List E c).
Proof.
  unfold List. apply answers_bind. intros e.
  destruct (isHard e) eqn:He.
  - destruct e as [e|]; [apply answers_error|discriminate].
  - apply answers_bind. intros n. destruct (0 <? n); [apply answers_map|].
    apply answers_List_fetch.
Qed.

(** [Total] reads the length between [Lock] and [Unlock] and changes
    nothing else. *)
Lemma Total_counted (s : State E) : Total E s = Ret (size (proxies s)) (counted s).
Proof. reflexivity. Qed.

(** What follows a computation only adds to the events it left. *)
Lemma bind_extends {A B} (m : M (State E) A) (k : A → M (State E) B) s :
  (∀ a, grows (k a)) → ∃ t, trace (final (bind m k s)) = t ++ trace (final (m s)).
Proof.
  intros Hk. rewrite final_bind. destruct (m s) as [a s1|e s1]; [apply Hk|now exists []].
Qed.

(** A GET whose URL parses is handed to [Do], whatever comes of it. *)
Lemma request_sent cl u useragent U (s : State E) :
  url_Parse E u = inl U →
  ∃ t, trace (final (request E cl MethodGet u useragent None s))
       = t ++ EvDo cl {| Method := MethodGet; RawURL := u; UserAgent := useragent;
                         ReqBody := None |} :: trace s.
Proof.
  intros HU. rewrite (request_get E cl u useragent U s HU). cbn zeta.
  destruct (Do E cl _ (world s)) as [[resp|e] w]; [|now exists []].
  destruct (StatusBadRequest <=? StatusCode resp)%Z; [|now exists []].
  unfold bind.
  match goal with
  | |- context [formatError E resp ?s0] => pose proof (formatError_cases E resp s0) as Hf
  end.
  destruct (json_Decode E (Body resp)) as [d|e]; rewrite Hf; cbn.
  - now exists [].
  - now exists [EvStderr (Error_ e)].
Qed.

(** A run of [List_fetch] that returned the map sent the request for the
    list. *)
Lemma List_fetch_success_trace c k m (s s' : State E) :
  List_fetch E c k s = Ret (m, None) s' →
  ∃ req t, trace s' = t ++ EvDo (Client c) req :: trace s.
Proof.
  unfold List_fetch. intros H.
  apply bind_inv_Ret in H as ([r e] & s2 & Hget & H).
  destruct e as [e|]; [discriminate|]. destruct r as [r|]; [|discriminate].
  unfold get in Hget. rewrite retryRequest_is_request in Hget.
  apply request_success_trace in Hget as [req Hreq].
  match type of H with
  | ?f s2 = _ =>
      assert (Hg : grows f)
        by (pose proof (grows_scanLoop E); pose proof (grows_putListCache E);
            unfold PanicOnError, WgExec_Wait; grows_auto)
  end.
  destruct (Hg s2) as [t Ht]. rewrite H in Ht. cbn in Ht.
  exists req, t. now rewrite Ht, Hreq.
Qed.

End Answers.

(** C8.  [Total] and the map [List] returns agree when [List] returns
    without an error, and only then.  Without an error, what [List] returns
    is the client's own map, the one [Total] counts: in every state, [Total]
    returns the number of entries of the map [List] returned.  With an
    error, what [List] returns is the nil map, of no entry, while [Total]
    still returns the number of entries the client holds.  [Total] reads
    that number between [Lock] and [Unlock] of [proxiesMu], the mutex
    between whose [Lock] and [Unlock] every worker stores its entry. *)
Theorem Total_is_the_size_of_the_map_of_List (E : Env) (c : client) (s s' : State E)
    (m : mapref) (e : option error) :
  List E c s = Ret (m, e) s' →
  match e with
  | None =>
      m = c_proxies
      ∧ ∀ t : State E, Total E t = Ret (size (deref t m)) (counted t)
  | Some _ =>
      m = nilMap
      ∧ ∀ t : State E, size (deref t m) = 0
                       ∧ Total E t = Ret (size (proxies t)) (counted t)
  end
  ∧ (∀ line (t : State E),
       ∃ t', worker E line t = Ret tt t'
             ∧ (proxies t' = proxies t ∨ ∃ t1 ip u, t' = stored t1 ip u)).
Proof.
  intros H. split.
  - destruct (answers_List E c s m e s' H) as [[-> He]|[-> ->]].
    + destruct e as [e|]; [|congruence]. split; [reflexivity|].
      intros t. split; [reflexivity|apply Total_counted].
    + split; [reflexivity|]. intros t. apply Total_counted.
  - intros line t.
    destruct (worker_spec E line t) as (res & s1 & _ & Hp & Hw & _).
    eexists. split; [exact Hw|].
    destruct res as [[ip u] [e'|]]; [left; exact Hp|right; eauto].
Qed.

(** C8, witness: the list of five lines. *)
Lemma Total_is_the_size_of_the_map_of_List_witness :
  let E := Fake.env Scenario.partialFailure in
  let s := Fake.fresh Scenario.partialFailure : State E in
  (c_proxies = c_proxies
   ∧ ∀ t : State E, Total E t = Ret (size (deref t c_proxies)) (counted t))
  ∧ (∀ line (t : State E),
       ∃ t', worker E line t = Ret tt t'
             ∧ (proxies t' = proxies t ∨ ∃ t1 ip u, t' = stored t1 ip u)).
Proof.
  intros E s.
  apply (Total_is_the_size_of_the_map_of_List E Scenario.c0 s (final (List E Scenario.c0 s))
           c_proxies None).
  apply Ret_final. vm_compute. reflexivity.
Defined.

(** C8, counterexample: the list of five lines with a cache that is full.
    The two lines that parse are stored, the write of the cache fails, and
    [List] returns the nil map and the error: the map returned has no
    entry, and [Total] returns two. *)
Lemma Total_is_not_the_size_of_the_nil_map :
  let E := Fake.env Scenario.cacheUnwritable in
  let run := List E Scenario.c0 (Fake.fresh Scenario.cacheUnwritable) in
  returned run
  = Some (nilMap, Some (errorString "write /tmp/rsocks: no space left on device"))
  ∧ size (deref (final run) nilMap) = 0
  ∧ returned (Total E (final run)) = Some 2.
Proof. intros E run. split; [|split]; vm_compute; reflexivity. Qed.

(** The same scenario, evaluated: [Total] after [List]. *)
Example Total_after_five_lines :
  let E := Fake.env Scenario.partialFailure in
  let s' := final (List E Scenario.c0 (Fake.fresh Scenario.partialFailure)) in
  returned (Total E s') = Some 2 ∧ size (deref s' c_proxies) = 2.
Proof. intros E s'. split; vm_compute; reflexivity. Qed.

(** C10.  A cache that gives no entry to a client that has none is no hit:
    [List] goes on to fetch the list, and when the URL of the list parses
    the request for it is the next thing handed to a client.  Conversely,
    a [List] that returned without an error and without a request has a
    map with an entry, and the cache gave an entry or the client had one. *)
Theorem List_fetches_unless_it_has_entries (E : Env) (c : client) (s : State E) :
  let k := "list_" +:+ listUrl c in
  (∀ e w1,
     cache_Get E k (world s) = ((∅, e), w1) → isHard e = false → proxies s = ∅ →
     List E c s = List_fetch E c k (after (withWorld s w1) EvLen)
     ∧ ∀ U, url_Parse E (listUrl c) = inl U →
            ∃ t, trace (final (List E c s))
                 = t ++ EvDo (Client c) (listRequest E c) :: EvLen :: trace s)
  ∧ (∀ m s',
       List E c s = Ret (m, None) s' →
       (∀ cl r, ¬ In (EvDo cl r) (events_since s s')) →
       m = c_proxies ∧ 0 < size (proxies s')
       ∧ ((cache_Get E k (world s)).1.1 ≠ ∅ ∨ proxies s ≠ ∅)).
Proof.
  intros k. split.
  - intros e w1 Hget Hhard Hempty.
    pose proof (List_after_miss E c e w1 s Hget Hhard Hempty) as HL. fold k in HL.
    split; [exact HL|]. intros U HU. rewrite HL.
    unfold List_fetch.
    match goal with
    | |- context [final (bind ?m ?k ?s0)] =>
        destruct (bind_extends E m k s0) as [t Ht];
          [intros [r0 e0]; pose proof (grows_scanLoop E); pose proof (grows_putListCache E);
           unfold PanicOnError, WgExec_Wait; grows_auto|]
    end.
    rewrite Ht. unfold get. rewrite retryRequest_is_request.
    destruct (request_sent E (Client c) (listUrl c) (userAgent E) U
                (after (withWorld s w1) EvLen) HU) as [t0 Ht0].
    rewrite Ht0. exists (t ++ t0). now rewrite <- app_assoc.
  - intros m s' H Hno.
    pose proof (answers_List E c s m None s' H) as [[_ Hn]|[-> _]]; [congruence|].
    split; [reflexivity|].
    unfold List in H. fold k in H.
    apply bind_inv_Ret in H as (e & s1 & Hcache & H).
    destruct (grows_getListCache E k s) as [t1 Ht1]. rewrite Hcache in Ht1. cbn in Ht1.
    destruct (isHard e) eqn:Hhard.
    { discriminate H. }
    apply bind_inv_Ret in H as (n & sA & Hlen & H).
    injection Hlen as <- <-.
    destruct (0 <? size (proxies s1)) eqn:Hn.
    + injection H as <-. cbn. apply Nat.ltb_lt in Hn. split; [exact Hn|].
      destruct (cache_Get E k (world s)) as [[l e0] w1] eqn:Hget. cbn.
      destruct (size l) eqn:Hl; [|left; apply map_size_non_empty_iff; lia].
      destruct (size (proxies s)) eqn:Hs; [|right; apply map_size_non_empty_iff; lia].
      exfalso. apply map_size_empty_inv in Hl, Hs. subst l.
      destruct (isHard e0) eqn:Hhard0.
      * rewrite (getListCache_hard E k _ _ _ s Hget Hhard0) in Hcache.
        injection Hcache as <- _. congruence.
      * rewrite (getListCache_empty E k _ _ s Hget Hhard0) in Hcache.
        injection Hcache as _ <-. cbn in Hn. rewrite Hs, map_size_empty in Hn. lia.
    + exfalso. apply List_fetch_success_trace in H as (req & t & Ht).
      apply (Hno (Client c) req).
      rewrite (events_since_app E s s' (t ++ EvDo (Client c) req :: EvLen :: t1)).
      * apply in_or_app. right. now left.
      * rewrite Ht. cbn. rewrite Ht1. rewrite <- app_assoc. reflexivity.
Qed.

(** The two sides of C10, evaluated: with an empty snapshot in the cache
    the list is fetched (one round trip for the list, three for the
    probes); with a snapshot of one entry nothing is sent. *)
Example List_on_cached_snapshots :
  let E := Fake.env Scenario.partialFailure in
  let empty := List E Scenario.c0 (Scenario.cachedState Scenario.partialFailure ∅) in
  let one := List E Scenario.c0
               (Scenario.cachedState Scenario.partialFailure
                  {[ "203.0.113.9" := "http://10.0.0.9:8080" ]}) in
  returned empty = Some (c_proxies, None)
  ∧ Fake.calls (world (final empty)) = 4
  ∧ size (proxies (final empty)) = 2
  ∧ returned one = Some (c_proxies, None)
  ∧ Fake.calls (world (final one)) = 0
  ∧ proxies (final one) = {[ "203.0.113.9" := Some (httpURL None "10.0.0.9:8080") ]}.
Proof. intros E empty one. repeat split; vm_compute; reflexivity. Qed.

(** * Further properties of the package *)

(** ** One attempt, and the error of an answer *)

Section Attempts.

Variable E : Env.

Lemma countDo_app t1 t2 : countDo (t1 ++ t2) = countDo t1 + countDo t2.
Proof.
  induction t1 as [|e t1 IH]; [reflexivity|]. destruct e; cbn; rewrite IH; reflexivity.
Qed.

(** [request] hands at most one request to its client. *)
Lemma request_events cl method u useragent body (s : State E) :
  ∃ t, trace (final (request E cl method u useragent body s)) = t ++ trace s
       ∧ countDo t ≤ 1.
Proof.
  unfold request. destruct (http_NewRequest E method u body) as [req|e];
    [|exists []; split; [reflexivity|cbn; lia]].
  unfold bind, Client_Do, bind, emit, call, withWorld; cbn.
  destruct (Do E cl _ _) as [[resp|e] w]; cbn;
    [|eexists [_]; split; [reflexivity|cbn; lia]].
  destruct (StatusBadRequest <=? StatusCode resp)%Z;
    [|eexists [_]; split; [reflexivity|cbn; lia]].
  match goal with
  | |- context [formatError E resp ?s0] => pose proof (formatError_cases E resp s0) as Hf
  end.
  destruct (json_Decode E (Body resp)) as [d|e]; rewrite Hf; cbn.
  - eexists [_]; split; [reflexivity|cbn; lia].
  - eexists [_; _]; split; [reflexivity|cbn; lia].
Qed.

End Attempts.

(** X1.  Whatever the client, the request and the number of retries the
    backoff policy allows, [retryRequest] does what a single [request]
    does: it hands at most one request to the client, and returns the
    response or the error of that one attempt. *)
Theorem retryRequest_makes_one_attempt (E : Env) cl method u useragent body (s : State E) :
  retryRequest E cl method u useragent body s = request E cl method u useragent body s
  ∧ countDo (events_since s (final (retryRequest E cl method u useragent body s))) ≤ 1.
Proof.
  split; [apply retryRequest_is_request|].
  rewrite retryRequest_is_request.
  destruct (request_events E cl method u useragent body s) as (t & Ht & Hc).
  now rewrite (events_since_app E _ _ t Ht).
Qed.

(** X2.  A GET whose URL parses is answered by [request] from what [Do]
    returns: an error of the client (no connection, a timeout) is returned
    as it is; a response of status 400 or more gives no response and an
    [*apiError] with that status, whose message is the [detail] of the JSON
    body, the text [error statusCode code <status>: <status text>] when the
    body decodes without one, and empty when the body does not decode; any
    other response is returned with no error. *)
Theorem request_classifies_the_answer (E : Env) cl u useragent U (s : State E) :
  url_Parse E u = inl U →
  let req := {| Method := MethodGet; RawURL := u; UserAgent := useragent; ReqBody := None |} in
  returned (request E cl MethodGet u useragent None s)
  = Some match (Do E cl req (world s)).1 with
         | inr e => (None, Some e)
         | inl resp =>
             if (400 <=? StatusCode resp)%Z
             then (None, Some (apiErrorPtr {| err := errorMessage E resp;
                                              statusCode := StatusCode resp |}))
             else (Some resp, None)
         end.
Proof.
  intros HU req. rewrite (request_get E cl u useragent U s HU). cbn zeta. fold req.
  destruct (Do E cl req (world s)) as [[resp|e] w]; cbn [fst]; [|reflexivity].
  change StatusBadRequest with 400%Z.
  destruct (400 <=? StatusCode resp)%Z; [|reflexivity].
  unfold bind, errorMessage.
  match goal with
  | |- context [formatError E resp ?s0] => pose proof (formatError_cases E resp s0) as Hf
  end.
  destruct (json_Decode E (Body resp)) as [d|e]; rewrite Hf; reflexivity.
Qed.

(** X2, witness: a 503 whose body carries a detail. *)
Lemma request_classifies_the_answer_witness :
  let sc := Scenario.always (Fake.response 503 (Scenario.detailBody "try later")) in
  let req := {| Method := MethodGet; RawURL := Scenario.listURL; UserAgent := "ua";
                ReqBody := None |} in
  returned (request (Fake.env sc) embeddedClient MethodGet Scenario.listURL "ua" None
              (Fake.fresh sc))
  = Some match (Do (Fake.env sc) embeddedClient req (world (Fake.fresh sc))).1 with
         | inr e => (None, Some e)
         | inl resp =>
             if (400 <=? StatusCode resp)%Z
             then (None, Some (apiErrorPtr {| err := errorMessage (Fake.env sc) resp;
                                              statusCode := StatusCode resp |}))
             else (Some resp, None)
         end.
Proof.
  intros sc req.
  apply (request_classifies_the_answer (Fake.env sc) embeddedClient Scenario.listURL "ua"
           {| Scheme := "http"; Opaque := ""; User := None; Host := "list.example";
              Path := "/proxies.txt"; RawPath := ""; ForceQuery := false; RawQuery := "";
              Fragment := "" |} (Fake.fresh sc)).
  vm_compute. reflexivity.
Defined.

(** ** What the parser returns, and what the map holds *)

Section Shape.

Variable E : Env.

(** An address [proxyIp] returns without an error is one [IsValidIp]
    accepts. *)
Lemma proxyIp_valid u ip (s s' : State E) :
  proxyIp E u s = Ret (ip, None) s' → IsValidIp E ip = true.
Proof.
  unfold proxyIp, bind. rewrite retryRequest_is_request.
  destruct (request_cases E (proxiedClient u 60) MethodGet probeURL probeUserAgent None s)
    as (s1 & _ & [[e H]|(r & H & _)]); rewrite H; [discriminate|].
  cbn. destruct (readErr (Body r)); [discriminate|].
  destruct (negb (StatusCode r =? 200)%Z); [discriminate|].
  destruct (IsValidIp E (TrimSpace (data (Body r)))) eqn:Hv; cbn; [|discriminate].
  now intros [= <- _].
Qed.

End Shape.

(** The two shapes of what [parseProxyLine] returns. *)
Lemma parseProxyLine_shape (E : Env) (line : string) (s : State E) :
  ∃ s', proxies s' = proxies s
        ∧ ((∃ e, parseProxyLine E line s = Ret ("", None, Some e) s')
           ∨ (∃ ip lu u,
                parseProxyLine E line s = Ret (ip, Some u, None) s'
                ∧ IsValidIp E ip = true
                ∧ lineURL (Split (TrimSpace line) ":") = Some lu
                ∧ url_Parse E lu = inl u)).
Proof.
  pose proof (parseProxyLine_cases E line s) as Hc.
  destruct (lineURL _) as [lu|]; [|exists s; split; [reflexivity|left; eauto]].
  destruct (url_Parse E lu) as [u|e] eqn:Hu; [|exists s; split; [reflexivity|left; eauto]].
  destruct (proxyIp_returns E (Some u) s) as ([ip [e|]] & s' & Hr & Hp); rewrite Hr in Hc.
  - exists s'. split; [exact Hp|left; eauto].
  - exists s'. split; [exact Hp|right].
    exists ip, lu, u. split; [exact Hc|]. split; [|split; [reflexivity|exact Hu]].
    eapply proxyIp_valid, Hr.
Qed.

(** X3.  [parseProxyLine] never panics and never touches the map.  It
    returns either an empty address, no URL and an error, or an address
    that [IsValidIp] accepts, the URL [url.Parse] made of the tokens of the
    line, and no error. *)
Theorem parseProxyLine_returns_an_entry_or_an_error (E : Env) (line : string) (s : State E) :
  ∃ s', proxies s' = proxies s
        ∧ ((∃ e, parseProxyLine E line s = Ret ("", None, Some e) s')
           ∨ (∃ ip lu u,
                parseProxyLine E line s = Ret (ip, Some u, None) s'
                ∧ IsValidIp E ip = true
                ∧ lineURL (Split (TrimSpace line) ":") = Some lu
                ∧ url_Parse E lu = inl u)).
Proof. apply parseProxyLine_shape. Qed.

Section Preservation.

Variable E : Env.
Variable P : gmap string (option URL) → Prop.

Lemma preserves_ret {A} (a : A) : preserves P (ret a : M (State E) A).
Proof. intros s H. exact H. Qed.

Lemma preserves_panic {A} e : preserves P (panic e : M (State E) A).
Proof. intros s H. exact H. Qed.

Lemma preserves_bind {A B} (m : M (State E) A) (k : A → M (State E) B) :
  preserves P m → (∀ a, preserves P (k a)) → preserves P (bind m k).
Proof.
  intros Hm Hk s H. rewrite final_bind. specialize (Hm s H).
  destruct (m s) as [a s1|e s1]; cbn in Hm; [now apply Hk|exact Hm].
Qed.

Lemma preserves_emit e : preserves P (emit E e).
Proof. intros s H. exact H. Qed.

Lemma preserves_call {A} (f : World E → A * World E) : preserves P (call E f).
Proof. intros s H. unfold call. now destruct (f (world s)). Qed.

Lemma preserves_lenProxies : preserves P (lenProxies E).
Proof. intros s H. exact H. Qed.

Lemma preserves_readProxies : preserves P (readProxies E).
Proof. intros s H. exact H. Qed.

Lemma preserves_forEach {A} (f : A → M (State E) unit) l :
  (∀ x, preserves P (f x)) → preserves P (forEach f l).
Proof.
  intros Hf. induction l as [|x l IH]; cbn; [apply preserves_ret|].
  apply preserves_bind; auto.
Qed.

(** What leaves the map alone keeps every property of it. *)
Lemma preserves_frame {A} (m : M (State E) A) :
  (∀ s, proxies (final (m s)) = proxies s) → preserves P m.
Proof. intros Hm s H. now rewrite Hm. Qed.

End Preservation.

Create HintDb preserves.

#[local] Hint Resolve preserves_ret preserves_panic preserves_emit preserves_call
  preserves_lenProxies preserves_readProxies : preserves.

Ltac preserves_step :=
  match goal with
  | |- preserves _ (bind _ _) => apply preserves_bind; [|intros ?]
  | |- preserves _ (match ?x with _ => _ end) => destruct x
  | |- preserves _ (forEach _ _) => apply preserves_forEach; intros ?
  end.

Ltac preserves_auto := repeat first [solve [eauto with preserves] | preserves_step].

Section PreservationOfThePackage.

Variable E : Env.
Variable P : gmap string (option URL) → Prop.

Lemma retryRequest_frame cl method u useragent body (s : State E) :
  proxies (final (retryRequest E cl method u useragent body s)) = proxies s.
Proof.
  rewrite retryRequest_is_request.
  destruct (request_cases E cl method u useragent body s)
    as (s' & Hp & [[e H]|(r & H & _)]); now rewrite H.
Qed.

Lemma preserves_retryRequest cl method u useragent body :
  preserves P (retryRequest E cl method u useragent body).
Proof. apply preserves_frame. intros s. apply retryRequest_frame. Qed.

Lemma preserves_stringsOf ps l : preserves P (stringsOf E ps l).
Proof.
  revert l. induction ps as [|[ip [u|]] ps IH]; intros l; cbn; auto with preserves.
Qed.

Lemma preserves_putListCache k : preserves P (putListCache E k).
Proof. pose proof preserves_stringsOf. unfold putListCache. preserves_auto. Qed.

(** The worker keeps a property of the map that every store of an address
    [IsValidIp] accepts, with a URL, keeps. *)
Lemma preserves_worker line :
  (∀ ip u m, IsValidIp E ip = true → P m → P (<[ip := Some u]> m)) →
  preserves P (worker E line).
Proof.
  intros Hstore s H.
  destruct (worker_spec E line s) as (res & s1 & Hres & Hp & Hw & _). rewrite Hw. cbn.
  destruct (parseProxyLine_shape E line s)
    as (s1' & _ & [[e He]|(ip & lu & u & He & Hv & _)]);
    rewrite He in Hres; injection Hres as <- <-; cbn; rewrite Hp; auto.
Qed.

Lemma preserves_scanLoop wg lines :
  (∀ ip u m, IsValidIp E ip = true → P m → P (<[ip := Some u]> m)) →
  preserves P (scanLoop E wg lines).
Proof.
  intros Hstore. pose proof (fun l => preserves_worker l Hstore).
  unfold scanLoop, WgExec_Run. preserves_auto.
Qed.

Lemma preserves_List_fetch c k :
  (∀ ip u m, IsValidIp E ip = true → P m → P (<[ip := Some u]> m)) →
  preserves P (List_fetch E c k).
Proof.
  intros Hstore. pose proof preserves_retryRequest. pose proof preserves_putListCache.
  pose proof (fun wg l => preserves_scanLoop wg l Hstore).
  unfold List_fetch, get, PanicOnError, WgExec_Wait. preserves_auto.
Qed.

End PreservationOfThePackage.

(** X4.  The validation only stores entries that are keyed by an address
    [IsValidIp] accepts and hold a URL: when the cache gives no entry and
    the map has only such entries before [List], it has only such entries
    when the call ends, whether it returns the map, an error, or panics. *)
Theorem List_keeps_the_entries_valid (E : Env) (c : client) (s : State E) :
  (cache_Get E ("list_" +:+ listUrl c) (world s)).1.1 = ∅ →
  validEntries E (proxies s) →
  validEntries E (proxies (final (List E c s))).
Proof.
  intros Hl Hs. unfold List. rewrite final_bind.
  destruct (cache_Get E ("list_" +:+ listUrl c) (world s)) as [[l e] w] eqn:Hget.
  cbn in Hl. subst l.
  assert (Hrest : preserves (validEntries E)
            (bind (lenProxies E)
               (fun n => if (0 <? n)%nat then ret (c_proxies, None)
                         else List_fetch E c ("list_" +:+ listUrl c)))).
  { assert (Hf : preserves (validEntries E) (List_fetch E c ("list_" +:+ listUrl c))).
    { apply preserves_List_fetch. intros ip u m Hv Hm.
      apply map_Forall_insert_2; [|exact Hm]. split; [exact Hv|eauto]. }
    preserves_auto. }
  destruct (isHard e) eqn:Hhard.
  - rewrite (getListCache_hard E _ _ _ _ s Hget Hhard), Hhard. exact Hs.
  - rewrite (getListCache_empty E _ _ _ s Hget Hhard). cbn [isHard]. now apply Hrest.
Qed.

(** X4, witness: the list of five lines, on a client without entries. *)
Lemma List_keeps_the_entries_valid_witness :
  let E := Fake.env Scenario.partialFailure in
  validEntries E (proxies (final (List E Scenario.c0 (Fake.fresh Scenario.partialFailure)))).
Proof.
  intros E.
  apply (List_keeps_the_entries_valid E Scenario.c0 (Fake.fresh Scenario.partialFailure)).
  - reflexivity.
  - apply map_Forall_empty.
Defined.

(** X5.  [List] never removes an entry: every address that is a key of the
    map before the call is one after it, however the call ends. *)
Theorem List_keeps_every_key (E : Env) (c : client) (s : State E) :
  dom (proxies s) ⊆ dom (proxies (final (List E c s))).
Proof.
  assert (Hstore : ∀ ip (u : option URL) (m : gmap string (option URL)),
            dom (proxies s) ⊆ dom m → dom (proxies s) ⊆ dom (<[ip := u]> m)).
  { intros ip u m Hm. rewrite dom_insert. set_solver. }
  assert (HL : preserves (fun m => dom (proxies s) ⊆ dom m) (List E c)).
  { unfold List, getListCache.
    pose proof (preserves_List_fetch E (fun m => dom (proxies s) ⊆ dom m) c
                  ("list_" +:+ listUrl c) (fun ip u m _ => Hstore ip (Some u) m)).
    assert (Hst : ∀ ip u, preserves (fun m => dom (proxies s) ⊆ dom m) (storeProxy E ip u)).
    { intros ip u s0 H0. cbn. now apply Hstore. }
    preserves_auto. }
  now apply HL.
Qed.

(** X6.  Blank lines count for nothing: the loop of [List] does on a list
    of lines what it does on the list without its empty lines. *)
Theorem scanLoop_skips_blank_lines (E : Env) (wg : WgExec) (lines : list string)
    (s : State E) :
  scanLoop E wg lines s
  = scanLoop E wg (List.filter (fun l => negb (String.eqb l "")) lines) s.
Proof.
  revert s. unfold scanLoop. induction lines as [|l lines IH]; intros s; [reflexivity|].
  cbn [forEach List.filter]. destruct (String.eqb l "") eqn:Hl; cbn [negb].
  - unfold bind at 1. cbn. apply IH.
  - cbn [forEach]. rewrite Hl.
    change (bind (WgExec_Run E wg (worker E) l)
              (fun _ => forEach (fun l0 => if String.eqb l0 "" then ret tt
                                           else WgExec_Run E wg (worker E) l0) lines) s
            = bind (WgExec_Run E wg (worker E) l)
                (fun _ => forEach (fun l0 => if String.eqb l0 "" then ret tt
                                             else WgExec_Run E wg (worker E) l0)
                            (List.filter (fun l0 => negb (String.eqb l0 "")) lines)) s).
    unfold bind.
    destruct (WgExec_Run E wg (worker E) l s) as [[] s1|e s1]; [apply IH|reflexivity].
Qed.

(** ** The errors [List] returns *)

(** X7.  An error of the cache that is neither [ErrNotFound] nor
    [ErrExpired] ends [List] at once: it is returned as it is with a nil
    map, nothing is sent, and the map of the client is as it was, even if
    the cache decoded entries. *)
Theorem List_returns_the_error_of_the_cache (E : Env) (c : client) (s : State E)
    (l : gmap string string) (e : error) (w : World E) :
  cache_Get E ("list_" +:+ listUrl c) (world s) = ((l, Some e), w) →
  cachita_IsErrorOk e = false →
  List E c s = Ret (nilMap, Some e) (withWorld s w).
Proof.
  intros Hget Hok. unfold List, bind.
  assert (Hhard : isHard (Some e) = true) by (cbn; now rewrite Hok).
  now rewrite (getListCache_hard E _ _ _ _ s Hget Hhard), Hhard.
Qed.

(** X7, witness: a cache directory that cannot be read. *)
Lemma List_returns_the_error_of_the_cache_witness :
  let E := Fake.env Scenario.cacheUnreadable in
  let s := Fake.fresh Scenario.cacheUnreadable : State E in
  List E Scenario.c0 s
  = Ret (nilMap, Some (errorString "open /tmp/rsocks: permission denied"))
        (withWorld s {| Fake.calls := 0; Fake.disk := ∅ |}).
Proof.
  intros E s.
  apply (List_returns_the_error_of_the_cache E Scenario.c0 s ∅); reflexivity.
Defined.

Section FetchFacts.

Variable E : Env.

(** What [request] returns for a GET whose URL parses. *)
Lemma request_returned cl u useragent U (s : State E) :
  url_Parse E u = inl U →
  let req := {| Method := MethodGet; RawURL := u; UserAgent := useragent; ReqBody := None |} in
  ∃ s', proxies s' = proxies s
    ∧ request E cl MethodGet u useragent None s
      = Ret match (Do E cl req (world s)).1 with
            | inr e => (None, Some e)
            | inl resp =>
                if (400 <=? StatusCode resp)%Z
                then (None, Some (apiErrorPtr {| err := errorMessage E resp;
                                                 statusCode := StatusCode resp |}))
                else (Some resp, None)
            end s'.
Proof.
  intros HU req. rewrite (request_get E cl u useragent U s HU). cbn zeta. fold req.
  destruct (Do E cl req (world s)) as [[resp|e] w]; cbn [fst]; [|eexists; split; [|reflexivity]; reflexivity].
  change StatusBadRequest with 400%Z.
  destruct (400 <=? StatusCode resp)%Z; [|eexists; split; [|reflexivity]; reflexivity].
  unfold bind, errorMessage.
  match goal with
  | |- context [formatError E resp ?s0] => pose proof (formatError_cases E resp s0) as Hf
  end.
  destruct (json_Decode E (Body resp)) as [d|e]; rewrite Hf; (eexists; split; [|reflexivity]; reflexivity).
Qed.

End FetchFacts.

(** X8.  On a client without entries whose cache gives none, a list that
    cannot be fetched ends [List] with a nil map and the error of the fetch,
    as it is: the error of [url.Parse] for the URL of the list, the error of
    the client, the [*apiError] of a response from 400 on, or the error the
    read of the body ends with.  The limits are not touched, no line is
    looked at and the map stays empty. *)
Theorem List_returns_the_error_of_the_fetch (E : Env) (c : client) (s : State E)
    (e0 : option error) (w1 : World E) (e : error) :
  cache_Get E ("list_" +:+ listUrl c) (world s) = ((∅, e0), w1) →
  isHard e0 = false →
  proxies s = ∅ →
  fetchError E c w1 = Some e →
  returned (List E c s) = Some (nilMap, Some e)
  ∧ proxies (final (List E c s)) = ∅
  ∧ countDo (events_since s (final (List E c s))) ≤ 1.
Proof.
  intros Hget Hhard Hempty Herr.
  rewrite (List_after_miss E c e0 w1 s Hget Hhard Hempty).
  set (sA := after (withWorld s w1) EvLen).
  assert (HtA : trace sA = [EvLen] ++ trace s) by reflexivity.
  unfold List_fetch, get, bind. rewrite retryRequest_is_request.
  unfold fetchError in Herr.
  destruct (url_Parse E (listUrl c)) as [U|e'] eqn:HU.
  - destruct (request_returned E (Client c) (listUrl c) (userAgent E) U sA HU)
      as (s2 & Hp2 & Hreq).
    destruct (request_events E (Client c) MethodGet (listUrl c) (userAgent E) None sA)
      as (t & Ht & Hc).
    rewrite Hreq in Ht |- *. cbn [final] in Ht.
    change {| Method := MethodGet; RawURL := listUrl c; UserAgent := userAgent E;
              ReqBody := None |} with (listRequest E c).
    change (world sA) with w1.
    assert (Hev : countDo (events_since s s2) ≤ 1).
    { rewrite (events_since_app E s s2 (t ++ [EvLen])).
      - rewrite countDo_app. cbn. lia.
      - rewrite Ht, HtA. now rewrite <- app_assoc. }
    assert (Hp : proxies s2 = ∅) by (rewrite Hp2; exact Hempty).
    destruct ((Do E (Client c) (listRequest E c) w1).1) as [resp|e'].
    + destruct (400 <=? StatusCode resp)%Z.
      * injection Herr as <-. cbn. auto.
      * cbn. rewrite Herr. cbn. auto.
    + injection Herr as <-. cbn. auto.
  - injection Herr as <-.
    rewrite (request_bad_url E (Client c) (listUrl c) (userAgent E) e' sA HU).
    cbn -[events_since].
    split; [reflexivity|]. split; [exact Hempty|].
    rewrite (events_since_app E s _ [EvLen]) by reflexivity. cbn. lia.
Qed.

(** X8, witness: a list server that answers 503. *)
Lemma List_returns_the_error_of_the_fetch_witness :
  let sc := Scenario.always (Fake.response 503 (Scenario.detailBody "try later")) in
  let E := Fake.env sc in
  let run := List E Scenario.c0 (Fake.fresh sc) in
  returned run = Some (nilMap, Some (apiErrorPtr {| err := "try later"; statusCode := 503 |}))
  ∧ proxies (final run) = ∅
  ∧ countDo (events_since (Fake.fresh sc) (final run)) ≤ 1.
Proof.
  intros sc E run.
  apply (List_returns_the_error_of_the_fetch E Scenario.c0 (Fake.fresh sc)
           (Some cachita_ErrNotFound) {| Fake.calls := 0; Fake.disk := ∅ |});
    vm_compute; reflexivity.
Defined.

(** X9.  When the write to the cache fails, [List] returns a nil map and
    the error of the write, but the entries it validated stay in the map of
    the client: [Total] counts them, and the next [List] will return them
    without fetching the list. *)
Theorem List_keeps_the_entries_when_the_cache_write_fails (E : Env) (c : client)
    (s s2 : State E) (e0 : option error) (w1 w3 : World E) (r : Response) (e : error) :
  let k := "list_" +:+ listUrl c in
  proxies s = ∅ →
  cache_Get E k (world s) = ((∅, e0), w1) →
  isHard e0 = false →
  get E c (listUrl c) (after (withWorld s w1) EvLen) = Ret (Some r, None) s2 →
  readErr (Body r) = None →
  LiftRLimits E (world s2) = (None, w3) →
  (∀ l w, (cache_Put E k l w).1 = Some e) →
  let rs := lineResults E (scanLines (data (Body r))) (withWorld s2 w3) in
  ∃ s', List E c s = Ret (nilMap, Some e) s'
        ∧ proxies s' = inserted (successes rs) ∅
        ∧ returned (Total E s') = Some (size (inserted (successes rs) ∅)).
Proof.
  intros k Hempty Hget Hhard Hfetch Hread Hlim Hput rs.
  rewrite (List_after_miss E c e0 w1 s Hget Hhard Hempty).
  rewrite (List_fetch_after_get E c _ r _ s2 Hfetch Hread), Hlim.
  assert (Hp2 : proxies (withWorld s2 w3) = ∅).
  { cbn. rewrite (get_proxies E _ _ _ _ _ Hfetch). exact Hempty. }
  destruct (scanLoop_spec E (NewWgExec 50) (scanLines (data (Body r))) (withWorld s2 w3))
    as (s4 & Hloop & Hp4 & Hall).
  fold rs in Hp4. rewrite Hp2 in Hp4, Hall.
  specialize (Hall (map_Forall_empty _)).
  rewrite (bind_Ret _ _ _ _ _ Hloop).
  rewrite (bind_Ret _ _ s4 tt (after s4 EvWait) eq_refl).
  destruct (putListCache_returns E k (after s4 EvWait)) as [l Hl]; [exact Hall|].
  rewrite (bind_Ret _ _ _ _ _ Hl), Hput.
  eexists. split; [reflexivity|]. cbn. split; [exact Hp4|]. now rewrite Hp4.
Qed.

(** X9, witness: the list of five lines, with a cache that is full. *)
Lemma List_keeps_the_entries_when_the_cache_write_fails_witness :
  let E := Fake.env Scenario.cacheUnwritable in
  let s := Fake.fresh Scenario.cacheUnwritable : State E in
  let s1 := after (withWorld s {| Fake.calls := 0; Fake.disk := ∅ |}) EvLen in
  let s2 := final (get E Scenario.c0 Scenario.listURL s1) in
  let rs := lineResults E (scanLines Scenario.fiveLines)
              (withWorld s2 {| Fake.calls := 1; Fake.disk := ∅ |}) in
  ∃ s', List E Scenario.c0 s
        = Ret (nilMap, Some (errorString "write /tmp/rsocks: no space left on device")) s'
        ∧ proxies s' = inserted (successes rs) ∅
        ∧ returned (Total E s') = Some (size (inserted (successes rs) ∅)).
Proof.
  intros E s s1 s2 rs.
  apply (List_keeps_the_entries_when_the_cache_write_fails E Scenario.c0 s s2
           (Some cachita_ErrNotFound)
           {| Fake.calls := 0; Fake.disk := ∅ |} {| Fake.calls := 1; Fake.disk := ∅ |}
           (Fake.response 200 Scenario.fiveLines));
    try (apply Ret_final); try (intros l w); vm_compute; reflexivity.
Defined.

(** The same scenario, evaluated: nil and an error from [List], two from
    [Total]. *)
Example List_with_a_full_cache :
  let E := Fake.env Scenario.cacheUnwritable in
  let run := List E Scenario.c0 (Fake.fresh Scenario.cacheUnwritable) in
  returned run = Some (nilMap, Some (errorString "write /tmp/rsocks: no space left on device"))
  ∧ returned (Total E (final run)) = Some 2.
Proof. intros E run. split; vm_compute; reflexivity. Qed.

(** ** The cached snapshot *)

Section CacheFacts.

Variable E : Env.

(** Stores of pairs with distinct keys, one after the other, are a union. *)
Lemma foldl_insert_union (ps : list (string * string)) (m0 : gmap string (option URL)) :
  NoDup ps.*1 →
  foldl (fun m p => <[p.1 := cachedURL E p.2]> m) m0 ps
  = list_to_map (prod_map id (cachedURL E) <$> ps) ∪ m0.
Proof.
  revert m0. induction ps as [|[i u] ps IH]; intros m0 Hnd; cbn.
  - now rewrite (left_id_L ∅ (∪)).
  - apply NoDup_cons in Hnd as [Hi Hnd]. rewrite (IH _ Hnd).
    rewrite <- insert_union_l. rewrite insert_union_r; [reflexivity|].
    apply not_elem_of_list_to_map. rewrite <- list_fmap_compose.
    replace (fst ∘ prod_map id (cachedURL E)) with (fst : string * string → string); [exact Hi|].
    reflexivity.
Qed.

(** The loop of [getListCache] on texts [ParseUrl] does not panic on. *)
Lemma forEach_load (ps : list (string * string)) (s : State E) :
  Forall (fun p => ∃ q, ParseUrl E p.2 = inl q) ps →
  ∃ s', forEach (fun '(ip, u) =>
                   match ParseUrl E u with
                   | inr p => panic p
                   | inl ptr => storeProxy E ip ptr
                   end) ps s = Ret tt s'
        ∧ proxies s' = foldl (fun m p => <[p.1 := cachedURL E p.2]> m) (proxies s) ps
        ∧ world s' = world s
        ∧ ∃ t, trace s' = t ++ trace s ∧ countDo t = 0.
Proof.
  revert s. induction ps as [|[ip u] ps IH]; intros s Hall.
  - exists s. repeat split. now exists [].
  - apply Forall_cons in Hall as [[q Hq] Hall]. cbn in Hq.
    cbn [forEach]. unfold bind at 1. cbv beta iota. rewrite Hq. cbn [storeProxy].
    destruct (IH {| world := world s; proxies := <[ip := q]> (proxies s);
                    trace := EvStore ip q :: trace s |} Hall)
      as (s' & Hrun & Hp & Hw & t & Ht & Hc).
    exists s'. split; [exact Hrun|]. split; [|split; [exact Hw|]].
    + assert (Hcu : cachedURL E u = q) by (unfold cachedURL; now rewrite Hq).
      rewrite Hp. cbn. now rewrite Hcu.
    + exists (t ++ [EvStore ip q]). cbn in Ht. rewrite Ht, <- app_assoc, countDo_app, Hc.
      split; reflexivity.
Qed.

(** [getListCache] on a snapshot whose texts [ParseUrl] does not panic on:
    the entries made of it are laid over the map. *)
Lemma getListCache_loads k l e w (s : State E) :
  cache_Get E k (world s) = ((l, e), w) → isHard e = false → parses E l →
  ∃ s', getListCache E k s = Ret None s'
        ∧ proxies s' = loaded E l ∪ proxies s
        ∧ world s' = w
        ∧ ∃ t, trace s' = t ++ trace s ∧ countDo t = 0.
Proof.
  intros Hget Hhard Hparses. unfold getListCache, bind at 1, call. rewrite Hget, Hhard.
  assert (Hl : loaded E l = list_to_map (prod_map id (cachedURL E) <$> map_to_list l)).
  { unfold loaded. now rewrite list_to_map_fmap, list_to_map_to_list. }
  destruct (0 <? size l) eqn:Hsz.
  - destruct (forEach_load (map_to_list l) (withWorld s w)) as (s' & Hrun & Hp & Hw & Ht).
    { apply map_Forall_to_list in Hparses. eapply Forall_impl; [exact Hparses|].
      intros [ip u]; cbn; auto. }
    exists s'. unfold bind. rewrite Hrun. split; [reflexivity|].
    split; [|split; [exact Hw|exact Ht]].
    rewrite Hp, foldl_insert_union by apply NoDup_fst_map_to_list. now rewrite Hl.
  - exists (withWorld s w). unfold bind. cbn. split; [reflexivity|].
    split; [|split; [reflexivity|now exists []]].
    apply Nat.ltb_ge in Hsz. assert (l = ∅) as -> by (apply map_size_empty_inv; lia).
    unfold loaded. now rewrite fmap_empty, (left_id_L ∅ (∪)).
Qed.

(** [getListCache] panics only with what [ParseUrl] panicked with. *)
Lemma getListCache_panic k e (s : State E) :
  panicked (getListCache E k s) = Some e → ∃ u, ParseUrl E u = inr e.
Proof.
  unfold getListCache, bind at 1, call.
  destruct (cache_Get E k (world s)) as [[l e0] w].
  destruct (isHard e0); [discriminate|].
  destruct (0 <? size l); [|discriminate].
  unfold bind. generalize (withWorld s w). generalize (map_to_list l).
  intros ps. induction ps as [|[ip u] ps IH]; intros s0; [discriminate|].
  cbn [forEach]. unfold bind at 1. cbv beta iota.
  destruct (ParseUrl E u) as [q|p] eqn:Hq; [|cbn; intros [= <-]; eauto].
  cbn [storeProxy]. apply IH.
Qed.

End CacheFacts.

(** X10.  A snapshot that the cache gives without a hard error, and whose
    texts [ParseUrl] does not panic on, is laid over the map of the client;
    if the snapshot or the map has an entry, [List] returns the map at once:
    it sends no request, and the entries of the snapshot hold what
    [ParseUrl] made of their texts. *)
Theorem List_serves_the_cached_snapshot (E : Env) (c : client) (s : State E)
    (l : gmap string string) (e : option error) (w1 : World E) :
  cache_Get E ("list_" +:+ listUrl c) (world s) = ((l, e), w1) →
  isHard e = false →
  parses E l →
  l ≠ ∅ ∨ proxies s ≠ ∅ →
  ∃ s', List E c s = Ret (c_proxies, None) s'
        ∧ proxies s' = loaded E l ∪ proxies s
        ∧ world s' = w1
        ∧ countDo (events_since s s') = 0.
Proof.
  intros Hget Hhard Hparses Hne.
  destruct (getListCache_loads E _ l e w1 s Hget Hhard Hparses)
    as (s1 & Hrun & Hp & Hw & t & Ht & Hc).
  unfold List. rewrite (bind_Ret _ _ _ _ _ Hrun). cbn [isHard].
  unfold bind, lenProxies.
  assert (Hsz : (0 <? size (proxies s1)) = true).
  { apply Nat.ltb_lt. enough (size (proxies s1) ≠ 0) by lia.
    apply map_size_non_empty_iff. rewrite Hp. intros Hu.
    destruct Hne as [Hl|Hs].
    - apply map_positive_l in Hu. apply fmap_empty_iff in Hu. contradiction.
    - apply map_choose in Hs as (i & x & Hix).
      assert (Hi : is_Some ((loaded E l ∪ proxies s) !! i))
        by (apply lookup_union_is_Some; right; eauto).
      rewrite Hu, lookup_empty in Hi. now destruct Hi. }
  rewrite Hsz. exists (after s1 EvLen). split; [reflexivity|].
  split; [exact Hp|]. split; [exact Hw|].
  rewrite (events_since_app E s _ (EvLen :: t)) by (cbn; now rewrite Ht).
  exact Hc.
Qed.

(** X10, witness: a snapshot of one entry in the cache of a client without
    entries. *)
Lemma List_serves_the_cached_snapshot_witness :
  let E := Fake.env Scenario.partialFailure in
  let l : gmap string string := {[ "203.0.113.9" := "http://10.0.0.9:8080" ]} in
  let s := Scenario.cachedState Scenario.partialFailure l : State E in
  ∃ s', List E Scenario.c0 s = Ret (c_proxies, None) s'
        ∧ proxies s' = loaded E l ∪ proxies s
        ∧ world s' = world s
        ∧ countDo (events_since s s') = 0.
Proof.
  intros E l s.
  apply (List_serves_the_cached_snapshot E Scenario.c0 s l None (world s)).
  - vm_compute. reflexivity.
  - reflexivity.
  - intros ip u Hu. apply lookup_singleton_Some in Hu as [_ <-].
    eexists. vm_compute. reflexivity.
  - left. apply insert_non_empty.
Defined.

(** X11.  [List] panics for two reasons only: the limits could not be
    raised, or [ParseUrl] panicked on a text of the cached snapshot.  No nil
    pointer is ever dereferenced: a request that returned no error returned
    a response, and every URL written to the cache is one a worker
    stored. *)
Theorem List_panics_for_the_limits_or_a_cached_url (E : Env) (c : client) (s : State E)
    (e : error) :
  panicked (List E c s) = Some e →
  (∃ w, (LiftRLimits E w).1 = Some e) ∨ (∃ u, ParseUrl E u = inr e).
Proof.
  unfold List. unfold bind at 1.
  destruct (getListCache E ("list_" +:+ listUrl c) s) as [e0 s1|e0 s1] eqn:Hcache.
  2:{ intros [= <-]. right. apply (getListCache_panic E ("list_" +:+ listUrl c) e0 s).
      now rewrite Hcache. }
  destruct (isHard e0); [discriminate|].
  unfold bind at 1, lenProxies.
  destruct (0 <? size (proxies s1)) eqn:Hsz; [discriminate|].
  apply Nat.ltb_ge in Hsz.
  assert (Hempty : proxies s1 = ∅) by (apply map_size_empty_inv; lia).
  set (sA := {| world := world s1; proxies := proxies s1; trace := EvLen :: trace s1 |}).
  intros Hpanic. left.
  pose proof (retryRequest_is_request E (Client c) MethodGet (listUrl c) (userAgent E) None sA)
    as Hretry.
  destruct (request_cases E (Client c) MethodGet (listUrl c) (userAgent E) None sA)
    as (s2 & Hp2 & [[e' Hreq]|(r & Hreq & _)]); rewrite Hreq in Hretry.
  - unfold List_fetch, get, bind in Hpanic. rewrite Hretry in Hpanic. discriminate.
  - destruct (readErr (Body r)) as [e'|] eqn:Hread.
    + unfold List_fetch, get, bind, ioutil_ReadAll in Hpanic.
      rewrite Hretry, Hread in Hpanic. discriminate.
    + rewrite (List_fetch_after_get E c _ r sA s2 Hretry Hread) in Hpanic.
      destruct (LiftRLimits E (world s2)) as [[e'|] w3] eqn:Hlim.
      * injection Hpanic as <-. exists (world s2). now rewrite Hlim.
      * exfalso.
        destruct (scanLoop_spec E (NewWgExec 50) (scanLines (data (Body r)))
                    (withWorld s2 w3)) as (s4 & Hloop & _ & Hall).
        assert (Hurls : allURLs (proxies s4)).
        { apply Hall. cbn. rewrite Hp2. cbn. rewrite Hempty. apply map_Forall_empty. }
        rewrite (bind_Ret _ _ _ _ _ Hloop) in Hpanic.
        rewrite (bind_Ret _ _ s4 tt (after s4 EvWait) eq_refl) in Hpanic.
        destruct (putListCache_returns E ("list_" +:+ listUrl c) (after s4 EvWait))
          as [l Hl]; [exact Hurls|].
        rewrite (bind_Ret _ _ _ _ _ Hl) in Hpanic.
        destruct ((cache_Put E ("list_" +:+ listUrl c) l (world (after s4 EvWait))).1);
          discriminate.
Qed.

(** X11, witness: the process that may not raise its limits. *)
Lemma List_panics_for_the_limits_or_a_cached_url_witness :
  let E := Fake.env Scenario.limitsRefused in
  (∃ w, (LiftRLimits E w).1 = Some (errorString "operation not permitted"))
  ∨ (∃ u, ParseUrl E u = inr (errorString "operation not permitted")).
Proof.
  intros E.
  apply (List_panics_for_the_limits_or_a_cached_url E Scenario.c0
           (Fake.fresh Scenario.limitsRefused)).
  vm_compute. reflexivity.
Defined.

(** ** The order of the lines *)

Section Constancy.

Variable E : Env.
Hypothesis oblivious : obliviousNetwork E.

Lemma constant_ret {A} (a : A) : constant (ret a : M (State E) A).
Proof. intros s1 s2. split; reflexivity. Qed.

Lemma constant_panic {A} e : constant (panic e : M (State E) A).
Proof. intros s1 s2. split; reflexivity. Qed.

Lemma constant_emit e : constant (emit E e).
Proof. intros s1 s2. split; reflexivity. Qed.

Lemma constant_bind {A B} (m : M (State E) A) (k : A → M (State E) B) :
  constant m → (∀ a, constant (k a)) → constant (bind m k).
Proof.
  intros Hm Hk s1 s2. unfold bind. destruct (Hm s1 s2) as [Hr Hp].
  destruct (m s1) as [a1 t1|e1 t1], (m s2) as [a2 t2|e2 t2]; cbn in Hr, Hp;
    try discriminate.
  - injection Hr as <-. apply Hk.
  - injection Hp as <-. split; reflexivity.
Qed.

Lemma constant_Do cl r : constant (Client_Do E cl r).
Proof using oblivious.
  intros s1 s2. unfold Client_Do, bind, emit, call. cbn.
  pose proof (oblivious cl r (world s1) (world s2)) as H.
  destruct (Do E cl r (world s1)), (Do E cl r (world s2)). cbn in *. subst. split; reflexivity.
Qed.

Lemma constant_formatError r : constant (formatError E r).
Proof.
  unfold formatError, Fprintf_Stderr.
  apply constant_bind; [|intros ?; apply constant_ret].
  destruct (json_Decode E (Body r)) as [d|e].
  - destruct (negb _); apply constant_ret.
  - apply constant_bind; [apply constant_emit|intros ?; apply constant_ret].
Qed.

Lemma constant_request cl method u useragent body :
  constant (request E cl method u useragent body).
Proof using oblivious.
  unfold request. destruct (http_NewRequest E method u body); [|apply constant_ret].
  apply constant_bind; [apply constant_Do|]. intros [resp|e]; [|apply constant_ret].
  destruct (_ <=? _)%Z; [|apply constant_ret].
  apply constant_bind; [apply constant_formatError|intros ?; apply constant_ret].
Qed.

Lemma constant_proxyIp u : constant (proxyIp E u).
Proof using oblivious.
  unfold proxyIp. apply constant_bind.
  - intros s1 s2. rewrite !retryRequest_is_request. apply constant_request.
  - intros [r [e|]]; [apply constant_ret|]. destruct r as [r|]; [|apply constant_panic].
    cbn. destruct (readErr (Body r)); [apply constant_ret|].
    destruct (negb _); [apply constant_ret|]. destruct (negb _); apply constant_ret.
Qed.

(** On a network whose answers do not depend on the state of the world,
    a line gives the same result whenever it is probed. *)
Lemma constant_parseProxyLine line : constant (parseProxyLine E line).
Proof using oblivious.
  unfold parseProxyLine. destruct (lineURL _); [|apply constant_ret].
  destruct (url_Parse E _); [|apply constant_ret].
  apply constant_bind; [apply constant_proxyIp|].
  intros [ip [e|]]; apply constant_ret.
Qed.

(** The result of a line, read off a run in any state. *)
Lemma lineResults_constant lines (s0 s : State E) :
  lineResults E lines s
  = (fun l => default ("", None, None) (returned (parseProxyLine E l s0)))
      <$> List.filter (fun l => negb (String.eqb l "")) lines.
Proof using oblivious.
  revert s. induction lines as [|l lines IH]; intros s; [reflexivity|].
  cbn [lineResults List.filter]. destruct (String.eqb l ""); cbn [negb]; [apply IH|].
  destruct (constant_parseProxyLine l (after s (EvRun l)) s0) as [Hr _].
  destruct (parseProxyLine_returns E l (after s (EvRun l))) as (res & s1 & Hres & _).
  rewrite Hres in Hr |- *. cbn in Hr. rewrite fmap_cons, <- Hr. cbn [default].
  f_equal. apply IH.
Qed.

End Constancy.

Section Orders.

(** Stores under distinct addresses give the same map in every order. *)
Lemma inserted_union (ps : list (string * option URL)) (m : gmap string (option URL)) :
  NoDup ps.*1 → inserted ps m = list_to_map ps ∪ m.
Proof.
  revert m. induction ps as [|[i u] ps IH]; intros m Hnd.
  - cbn. now rewrite (left_id_L ∅ (∪)).
  - apply NoDup_cons in Hnd as [Hi Hnd]. rewrite inserted_cons, (IH _ Hnd). cbn.
    rewrite <- insert_union_l. rewrite insert_union_r; [reflexivity|].
    now apply not_elem_of_list_to_map.
Qed.

Lemma inserted_Permutation (ps ps' : list (string * option URL)) m :
  ps ≡ₚ ps' → NoDup ps.*1 → inserted ps m = inserted ps' m.
Proof.
  intros Hperm Hnd.
  assert (Hnd' : NoDup ps'.*1) by (now rewrite <- Hperm).
  rewrite !inserted_union by assumption. f_equal.
  now apply list_to_map_proper.
Qed.

End Orders.

(** X12.  On a network whose answers do not depend on the state of the
    world, the map the validation leaves does not depend on the order in
    which the lines are taken, as long as the lines that parse give distinct
    addresses: any two orders of the same lines leave the same map. *)
Theorem validation_does_not_depend_on_the_order (E : Env) (wg : WgExec)
    (lines lines' : list string) (s : State E) :
  obliviousNetwork E →
  lines ≡ₚ lines' →
  NoDup (successes (lineResults E lines s)).*1 →
  proxies (final (scanLoop E wg lines s)) = proxies (final (scanLoop E wg lines' s)).
Proof.
  intros Hobl Hperm Hnd.
  destruct (scanLoop_spec E wg lines s) as (s1 & H1 & Hp1 & _).
  destruct (scanLoop_spec E wg lines' s) as (s2 & H2 & Hp2 & _).
  rewrite H1, H2. cbn. rewrite Hp1, Hp2.
  apply inserted_Permutation; [|exact Hnd].
  rewrite (lineResults_constant E Hobl lines s s), (lineResults_constant E Hobl lines' s s).
  unfold successes. apply omap_Permutation, fmap_Permutation.
  clear -Hperm. induction Hperm; cbn.
  - reflexivity.
  - destruct (negb _); [now constructor|assumption].
  - destruct (negb (String.eqb x "")), (negb (String.eqb y "")); try reflexivity.
    apply perm_swap.
  - etransitivity; eassumption.
Qed.

(** X12, witness: the five lines, and the five lines last line first. *)
Lemma validation_does_not_depend_on_the_order_witness :
  let E := Fake.env Scenario.partialFailure in
  let s := Fake.fresh Scenario.partialFailure : State E in
  let lines := scanLines Scenario.fiveLines in
  proxies (final (scanLoop E (NewWgExec 50) lines s))
  = proxies (final (scanLoop E (NewWgExec 50) (reverse lines) s)).
Proof.
  intros E s lines.
  apply (validation_does_not_depend_on_the_order E (NewWgExec 50) lines (reverse lines) s).
  - intros cl r w w'. reflexivity.
  - symmetry. apply reverse_Permutation.
  - apply (bool_decide_unpack _). vm_compute. exact I.
Defined.

(** ** The cache, written and read back *)

Section RoundTrip.

Variable E : Env.

(** The loop of [putListCache] on pointers that are not nil. *)
Lemma stringsOf_spec (ps : list (string * option URL)) (l : gmap string string) (s : State E) :
  Forall (fun p => is_Some p.2) ps →
  stringsOf E ps l s
  = Ret (foldl (fun l p => <[p.1 := match p.2 with Some u' => URL_String E u' | None => "" end]> l)
           l ps) s.
Proof.
  revert l. induction ps as [|[ip u] ps IH]; intros l Hall; [reflexivity|].
  apply Forall_cons in Hall as [Hu Hall]. cbn in Hu. destruct Hu as [u' ->].
  cbn. apply IH, Hall.
Qed.

Lemma foldl_insert_fmap {A B} (f : A → B) (ps : list (string * A)) (l : gmap string B) :
  NoDup ps.*1 →
  foldl (fun l p => <[p.1 := f p.2]> l) l ps = list_to_map (prod_map id f <$> ps) ∪ l.
Proof.
  revert l. induction ps as [|[i u] ps IH]; intros l Hnd; cbn.
  - now rewrite (left_id_L ∅ (∪)).
  - apply NoDup_cons in Hnd as [Hi Hnd]. rewrite (IH _ Hnd).
    rewrite <- insert_union_l. rewrite insert_union_r; [reflexivity|].
    apply not_elem_of_list_to_map. rewrite <- list_fmap_compose. exact Hi.
Qed.

(** [putListCache] hands the rendered map to the cache. *)
Lemma putListCache_writes k (s : State E) :
  allURLs (proxies s) →
  putListCache E k s
  = Ret (cache_Put E k (rendered E (proxies s)) (world s)).1
        (withWorld s (cache_Put E k (rendered E (proxies s)) (world s)).2).
Proof.
  intros Hall. unfold putListCache, bind, readProxies.
  rewrite stringsOf_spec.
  2:{ apply map_Forall_to_list in Hall. eapply Forall_impl; [exact Hall|].
      intros [ip u]; cbn; auto. }
  rewrite (foldl_insert_fmap
             (fun u : option URL => match u with Some u' => URL_String E u' | None => "" end))
    by apply NoDup_fst_map_to_list.
  rewrite list_to_map_fmap, list_to_map_to_list, (right_id_L ∅ (∪)).
  fold (rendered E (proxies s)). unfold call.
  now destruct (cache_Put E k (rendered E (proxies s)) (world s)).
Qed.

End RoundTrip.

(** X13.  The cache round trip.  When no pointer of the map is nil,
    [putListCache] writes the snapshot that maps each address to the text
    of its URL; if the cache takes it and later gives it back, and
    [ParseUrl] reads each of those texts back to its URL, then
    [getListCache] on a client without entries rebuilds the very same
    map. *)
Theorem cache_round_trip (E : Env) (k : string) (s s0 : State E) (e : option error)
    (w1 w2 : World E) :
  allURLs (proxies s) →
  (∀ ip u, proxies s !! ip = Some (Some u) → ParseUrl E (URL_String E u) = inl (Some u)) →
  cache_Put E k (rendered E (proxies s)) (world s) = (None, w1) →
  cache_Get E k (world s0) = ((rendered E (proxies s), e), w2) →
  isHard e = false →
  proxies s0 = ∅ →
  putListCache E k s = Ret None (withWorld s w1)
  ∧ ∃ s', getListCache E k s0 = Ret None s' ∧ proxies s' = proxies s.
Proof.
  intros Hall Hback Hput Hget Hhard Hempty. split.
  - rewrite (putListCache_writes E k s Hall). now rewrite Hput.
  - destruct (getListCache_loads E k _ e w2 s0 Hget Hhard) as (s' & Hrun & Hp & _).
    + intros ip t Ht. unfold rendered in Ht. rewrite lookup_fmap in Ht.
      destruct (proxies s !! ip) as [u|] eqn:Hu; [|discriminate].
      destruct (Hall ip u Hu) as [u' ->]. injection Ht as <-. eauto.
    + exists s'. split; [exact Hrun|]. rewrite Hp, Hempty, (right_id_L ∅ (∪)).
      apply map_eq. intros ip. unfold loaded, rendered. rewrite !lookup_fmap.
      destruct (proxies s !! ip) as [u|] eqn:Hu; [|reflexivity].
      destruct (Hall ip u Hu) as [u' ->]. cbn. unfold cachedURL.
      now rewrite (Hback ip u' Hu).
Qed.

(** X13, witness: the two entries of the scenario, written by one client
    and read by a fresh one. *)
Lemma cache_round_trip_witness :
  let E := Fake.env Scenario.partialFailure in
  let m : gmap string (option URL) :=
    {[ "203.0.113.7" := Some (httpURL None "10.0.0.1:8080");
       "203.0.113.8" := Some (httpURL (Some (UserPassword "bob" "secret")) "10.0.0.2:8080") ]} in
  let s := Build_State E {| Fake.calls := 4; Fake.disk := ∅ |} m [] in
  let w1 := {| Fake.calls := 4; Fake.disk := {[ "k" := rendered E m ]} |} in
  let s0 := Build_State E w1 ∅ [] in
  putListCache E "k" s = Ret None (withWorld s w1)
  ∧ ∃ s', getListCache E "k" s0 = Ret None s' ∧ proxies s' = proxies s.
Proof.
  intros E m s w1 s0.
  apply (cache_round_trip E "k" s s0 None w1 w1).
  - intros ip u Hu. unfold s, m in Hu. cbn [proxies] in Hu.
    apply lookup_insert_Some in Hu as [[_ <-]|[_ Hu]]; [eauto|].
    apply lookup_singleton_Some in Hu as [_ <-]. eauto.
  - intros ip u Hu. unfold s, m in Hu. cbn [proxies] in Hu.
    apply lookup_insert_Some in Hu as [[_ Hu]|[_ Hu]].
    + injection Hu as <-. vm_compute. reflexivity.
    + apply lookup_singleton_Some in Hu as [_ Hu]. injection Hu as <-. vm_compute. reflexivity.
  - vm_compute. reflexivity.
  - vm_compute. reflexivity.
  - reflexivity.
  - reflexivity.
Defined.
